(** * keba: a shallow embedding of the UDP client of the KEBA wallbox exporter

    The development follows [keba.go] (the client used by the exporter) and
    the earlier stand-alone client of the same repository, which carries its
    own [DIPs.String].  Go's [int] is taken as 64 bits wide, and the
    behaviour of [encoding/json] is that of Go 1.14 and later.  A reply
    is taken after lexing, as a JSON value: bytes that are not JSON are
    a failed read of the transport.  Keys are folded as the field lookup
    folds them; the names of all fields here are ASCII.

    Layout: the library functions the client calls ([strconv], [strings],
    [fmt], [encoding/json]), the records and their decoders, the transport,
    the four client queries, the mutex protocol of [udp.msg], and then the
    theorems. *)

From Stdlib Require Import ZArith List String Ascii Bool Lia DecimalString.
From Stdlib Require Import Sorted.
From Stdlib Require Floats Uint63.
Import ListNotations.

Local Open Scope string_scope.
Local Open Scope Z_scope.

(** ** Errors *)

(** The error values that can reach a caller of the client.  [NumError]
    is [*strconv.NumError] with its [Func], [Num] and [Err] fields. *)
Inductive NumErr := ErrSyntax | ErrRange.

Inductive error :=
| NumError (fn num : string) (err : NumErr)
| UnmarshalTypeError (value : string)
| InvalidNumberLiteral (item : string)
| NetError (op : string).

(** ** strings and strconv *)

Module strings.

Definition HasPrefix (s prefix : string) : bool := String.prefix prefix s.

(** [s[n:]] for [n] within the length of [s]. *)
Fixpoint drop (n : nat) (s : string) : string :=
  match n, s with
  | S n', String _ s' => drop n' s'
  | _, _ => s
  end.

(** [strings.TrimPrefix]: [s] without the leading [prefix], or [s]
    itself when it does not start with it. *)
Definition TrimPrefix (s prefix : string) : string :=
  if HasPrefix s prefix then drop (String.length prefix) s else s.

End strings.

Module strconv.

Definition byte_of (c : ascii) : Z := Z.of_N (N_of_ascii c).

(** [lower(c) = c | ('x' - 'X')]. *)
Definition lower (c : ascii) : Z := Z.lor (byte_of c) 32.

Definition maxUint64 : Z := 2 ^ 64 - 1.

(** The digit switch of [ParseUint] for a non-zero base: [None] is the
    [default] branch (a syntax error). *)
Definition digit (c : ascii) : option Z :=
  let b := byte_of c in
  if (48 <=? b) && (b <=? 57) then Some (b - 48)
  else if (97 <=? lower c) && (lower c <=? 122) then Some (lower c - 97 + 10)
  else None.

(** The loop of [ParseUint] over the bytes of [s], with the running
    value [n]; [s0] is the whole input, kept for the error. *)
Fixpoint ParseUint_loop (s0 : string) (base cutoff maxVal : Z)
         (s : string) (n : Z) : Z * option error :=
  match s with
  | EmptyString => (n, None)
  | String c s' =>
      match digit c with
      | None => (0, Some (NumError "ParseUint" s0 ErrSyntax))
      | Some d =>
          if base <=? d then (0, Some (NumError "ParseUint" s0 ErrSyntax))
          else if cutoff <=? n then
            (maxVal, Some (NumError "ParseUint" s0 ErrRange))
          else
            let n' := n * base in
            let n1 := n' + d in
            if (maxUint64 <? n1) || (maxVal <? n1) then
              (maxVal, Some (NumError "ParseUint" s0 ErrRange))
            else ParseUint_loop s0 base cutoff maxVal s' n1
      end
  end.

(** [strconv.ParseUint] for an explicit base in 2..36 and a bit size in
    1..64, which is how the client and [encoding/json] call it. *)
Definition ParseUint (s : string) (base bitSize : Z) : Z * option error :=
  match s with
  | EmptyString => (0, Some (NumError "ParseUint" s ErrSyntax))
  | _ =>
      let cutoff := maxUint64 / base + 1 in
      let maxVal := 2 ^ bitSize - 1 in
      ParseUint_loop s base cutoff maxVal s 0
  end.

Definition is_range (e : error) : bool :=
  match e with NumError _ _ ErrRange => true | _ => false end.

(** [strconv.ParseInt]: an optional sign, then [ParseUint], then the
    signed range check against [1 << (bitSize-1)]. *)
Definition ParseInt (s : string) (base bitSize : Z) : Z * option error :=
  match s with
  | EmptyString => (0, Some (NumError "ParseInt" s ErrSyntax))
  | String c rest =>
      let s0 := s in
      let '(neg, s1) :=
        if Ascii.eqb c "+" then (false, rest)
        else if Ascii.eqb c "-" then (true, rest)
        else (false, s) in
      let '(un, err) := ParseUint s1 base bitSize in
      match err with
      | Some e =>
          if is_range e then
            let cutoff := 2 ^ (bitSize - 1) in
            if negb neg && (cutoff <=? un) then
              (cutoff - 1, Some (NumError "ParseInt" s0 ErrRange))
            else if neg && (cutoff <? un) then
              (- cutoff, Some (NumError "ParseInt" s0 ErrRange))
            else ((if neg then - un else un), None)
          else (0, Some (NumError "ParseInt" s0 ErrSyntax))
      | None =>
          let cutoff := 2 ^ (bitSize - 1) in
          if negb neg && (cutoff <=? un) then
            (cutoff - 1, Some (NumError "ParseInt" s0 ErrRange))
          else if neg && (cutoff <? un) then
            (- cutoff, Some (NumError "ParseInt" s0 ErrRange))
          else ((if neg then - un else un), None)
      end
  end.

End strconv.

(** ** fmt *)

Module fmt.

(** The verb [%d] on an integer. *)
Definition d (i : Z) : string := NilZero.string_of_int (Z.to_int i).

Definition digit_char (k : Z) : ascii :=
  ascii_of_N (Z.to_N (if k <? 10 then 48 + k else 87 + k)).

(** The digits of [n] in [base], most significant first, appended in
    front of [acc]; [fuel] bounds the number of digits. *)
Fixpoint digits (fuel : nat) (base n : Z) (acc : string) : string :=
  match fuel with
  | O => acc
  | S fuel' =>
      let acc' := String (digit_char (n mod base)) acc in
      if n / base =? 0 then acc' else digits fuel' base (n / base) acc'
  end.

Fixpoint zeros (k : nat) : string :=
  match k with O => "" | S k' => String "0" (zeros k') end.

(** The verb [%x] on an unsigned value below 2^64. *)
Definition x (n : Z) : string := digits 64 16 n "".

(** The verb [%016b] on an unsigned value below 2^64: binary, padded
    with zeros on the left to a width of 16. *)
Definition b016 (n : Z) : string :=
  let s := digits 64 2 n "" in
  zeros (16 - String.length s) ++ s.

End fmt.

(** ** encoding/json *)

(** A JSON value after lexing.  A number keeps its literal text, as the
    decoder does until it knows the Go type it stores into; the keys of
    an object and the contents of a string are already unquoted. *)
#[warnings="-register-all"]
Inductive JSON :=
| JNull
| JBool (b : bool)
| JNumber (lit : string)
| JString (s : string)
| JArray (elems : list JSON)
| JObject (members : list (string * JSON)).

Module json.

Definition is_digit (c : ascii) : bool :=
  let b := strconv.byte_of c in (48 <=? b) && (b <=? 57).

(** The loop [for len(s) > 0 && '0' <= s[0] && s[0] <= '9' { s = s[1:] }]. *)
Fixpoint skip_digits (s : string) : string :=
  match s with
  | String c s' => if is_digit c then skip_digits s' else s
  | EmptyString => s
  end.

(** [isValidNumber]: the JSON number grammar, on the text of a string
    that is stored into a [json.Number]. *)
Definition isValidNumber (s : string) : bool :=
  match s with
  | EmptyString => false
  | String c0 r0 =>
      let s1 := if Ascii.eqb c0 "-" then r0 else s in
      match s1 with
      | EmptyString => false
      | String c1 r1 =>
          let after_int :=
            if Ascii.eqb c1 "0" then Some r1
            else if is_digit c1 then Some (skip_digits r1)
            else None in
          match after_int with
          | None => false
          | Some s2 =>
              let s3 :=
                match s2 with
                | String "." (String c r) =>
                    if is_digit c then skip_digits r else s2
                | _ => s2
                end in
              let s4 :=
                match s3 with
                | String e (String c r) =>
                    if Ascii.eqb e "e" || Ascii.eqb e "E" then
                      if Ascii.eqb c "+" || Ascii.eqb c "-" then
                        match r with
                        | EmptyString => None
                        | _ => Some (skip_digits r)
                        end
                      else Some (skip_digits (String c r))
                    else Some s3
                | _ => Some s3
                end in
              match s4 with
              | Some EmptyString => true
              | _ => false
              end
          end
      end
  end.

(** [Number.Int64]. *)
Definition Number_Int64 (n : string) : Z * option error :=
  strconv.ParseInt n 10 64.

(** Case folding of the field lookup.  An ASCII letter folds with its
    other case.  Two runes outside ASCII fold with an ASCII letter too,
    and a key that holds them names the field all the same: U+017F, the
    long s (bytes C5 BF), with [s], and U+212A, the Kelvin sign (bytes
    E2 84 AA), with [k].  No other rune folds with an ASCII letter, so
    against the ASCII names of the fields here every other byte stands
    for itself. *)
Definition fold_byte (c : ascii) : ascii :=
  let b := strconv.byte_of c in
  if (65 <=? b) && (b <=? 90) then ascii_of_N (Z.to_N (b + 32)) else c.

Definition is_byte (c : ascii) (b : Z) : bool := strconv.byte_of c =? b.

Fixpoint fold_name (s : string) : string :=
  match s with
  | EmptyString => EmptyString
  | String c1 r1 =>
      match r1 with
      | String c2 r2 =>
          if is_byte c1 197 && is_byte c2 191 then String "s" (fold_name r2)
          else
            match r2 with
            | String c3 r3 =>
                if is_byte c1 226 && is_byte c2 132 && is_byte c3 170
                then String "k" (fold_name r3)
                else String (fold_byte c1) (fold_name r1)
            | EmptyString => String (fold_byte c1) (fold_name r1)
            end
      | EmptyString => String (fold_byte c1) (fold_name r1)
      end
  end.

Definition equalFold (s t : string) : bool :=
  String.eqb (fold_name s) (fold_name t).

(** The text [UnmarshalTypeError.Value] reports for a value that does
    not fit the Go type. *)
Definition kind (v : JSON) : string :=
  match v with
  | JNull => "null"
  | JBool _ => "bool"
  | JNumber _ => "number"
  | JString _ => "string"
  | JArray _ => "array"
  | JObject _ => "object"
  end.

Section Struct.

Variable T : Type.

(** What storing one member's value into a struct does: it stores,
    it records an error with [saveError] and goes on, or it returns
    an error, which ends the decoding at once. *)
Inductive stored :=
| Stored (t : T)
| Saved (t : T) (e : error)
| Aborted (t : T) (e : error).

Record field := { name : string; store : JSON -> T -> stored }.

(** A Go [int] field. *)
Definition store_int (set : Z -> T -> T) (v : JSON) (t : T) : stored :=
  match v with
  | JNull => Stored t
  | JNumber lit =>
      match strconv.ParseInt lit 10 64 with
      | (n, None) => Stored (set n t)
      | (_, Some _) => Saved t (UnmarshalTypeError ("number " ++ lit))
      end
  | _ => Saved t (UnmarshalTypeError (kind v))
  end.

(** A Go [string] field. *)
Definition store_string (set : string -> T -> T) (v : JSON) (t : T) : stored :=
  match v with
  | JNull => Stored t
  | JString s => Stored (set s t)
  | _ => Saved t (UnmarshalTypeError (kind v))
  end.

(** A [json.Number] field: a number keeps its text, a string must
    hold a valid number. *)
Definition store_Number (set : string -> T -> T) (v : JSON) (t : T) : stored :=
  match v with
  | JNull => Stored t
  | JNumber lit => Stored (set lit t)
  | JString s =>
      if isValidNumber s then Stored (set s t)
      else Aborted t (InvalidNumberLiteral s)
  | _ => Saved t (UnmarshalTypeError (kind v))
  end.

(** A field whose type has an [UnmarshalJSON] method with a value
    receiver address: the method gets every value, [null] included,
    and its error ends the decoding. *)
Definition store_Unmarshaler {F : Type} (get : T -> F) (set : F -> T -> T)
           (unmarshal : JSON -> F -> F * option error)
           (v : JSON) (t : T) : stored :=
  match unmarshal v (get t) with
  | (f, None) => Stored (set f t)
  | (f, Some e) => Aborted (set f t) e
  end.

Variable fields : list field.

(** The field a key names: an exact match first, otherwise the first
    field that matches when case is ignored. *)
Definition find_field (key : string) : option field :=
  match find (fun f => String.eqb (name f) key) fields with
  | Some f => Some f
  | None => find (fun f => equalFold (name f) key) fields
  end.

Definition saveError (saved : option error) (e : error) : option error :=
  match saved with None => Some e | Some _ => saved end.

(** The members of an object, in order.  The result is the struct,
    the saved error, and the error that ended the decoding early, if
    any. *)
Fixpoint object (members : list (string * JSON)) (t : T)
         (saved : option error) : T * option error * option error :=
  match members with
  | [] => (t, saved, None)
  | (key, v) :: rest =>
      match find_field key with
      | None => object rest t saved
      | Some f =>
          match store f v t with
          | Stored t' => object rest t' saved
          | Saved t' e => object rest t' (saveError saved e)
          | Aborted t' e => (t', saved, Some e)
          end
      end
  end.

(** [json.Unmarshal(data, &t)] for a struct [t] without an
    [UnmarshalJSON] method. *)
Definition Unmarshal_struct (data : JSON) (t : T) : T * option error :=
  match data with
  | JNull => (t, None)
  | JObject members =>
      match object members t None with
      | (t', _, Some e) => (t', Some e)
      | (t', saved, None) => (t', saved)
      end
  | _ => (t, Some (UnmarshalTypeError (kind data)))
  end.

End Struct.

Arguments Stored {T}.
Arguments Saved {T}.
Arguments Aborted {T}.
Arguments name {T}.
Arguments store {T}.
Arguments store_int {T}.
Arguments store_string {T}.
Arguments store_Number {T}.
Arguments store_Unmarshaler {T F}.
Arguments find_field {T}.
Arguments object {T}.
Arguments Unmarshal_struct {T}.

(** [json.Unmarshal(data, &s)] for a [string]. *)
Definition Unmarshal_string (data : JSON) (s : string) : string * option error :=
  match data with
  | JNull => (s, None)
  | JString x => (x, None)
  | _ => (s, Some (UnmarshalTypeError (kind data)))
  end.

End json.

(** ** The DIP switches *)

(** [type DIPs uint16]. *)
Definition DIPs := Z.

Definition uint16 (i : Z) : Z := i mod 2 ^ 16.

Definition dip1 : Z := Z.shiftl 1 16.
Definition dip2 : Z := Z.shiftl 1 8.
Definition DIP_Modbus : Z := Z.shiftr dip1 2.
Definition DIP_UDP : Z := Z.shiftr dip1 3.

Definition DIPs_Has (d : DIPs) (i : Z) : bool := negb (Z.land d i =? 0).

(** [DIPs.UnmarshalJSON]: the value of the receiver after the call, and
    the error. *)
Definition DIPs_UnmarshalJSON (data : JSON) (d : DIPs) : DIPs * option error :=
  match json.Unmarshal_string data "" with
  | (_, Some e) => (d, Some e)
  | (s, None) =>
      match strconv.ParseInt (strings.TrimPrefix s "0x") 16 16 with
      | (_, Some e) => (d, Some e)
      | (i, None) => (uint16 i, None)
      end
  end.

(** [DIPs.String] of [keba.go]. *)
Definition DIPs_String (d : DIPs) : string := fmt.b016 d.

(** [DIPs.String] of the stand-alone client. *)
Definition DIPs_String_0x (d : DIPs) : string := "0x" ++ fmt.x (uint16 d).

(** [DIPs.MarshalJSON]: the bytes of [String], as they are. *)
Definition DIPs_MarshalJSON (d : DIPs) : string * option error :=
  (DIPs_String d, None).

(** ** The report records *)

Record System := mkSystem {
  System_Product : string;
  System_Serial : string;
  System_Firmware : string;
  System_COMModule : Z;
  System_Backend : Z;
  System_DIPs : DIPs
}.

Record Config := mkConfig {
  Config_State : Z;
  Config_Plug : Z;
  Config_MaxCurrent : Z;
  Config_CurrentLimit : Z;
  Config_EnergyLimit : Z;
  Config_Seconds : Z
}.

Record Session := mkSession {
  Session_Energy : Z;
  Session_Total : Z;
  Session_Voltage1 : Z;
  Session_Voltage2 : Z;
  Session_Voltage3 : Z;
  Session_Current1 : Z;
  Session_Current2 : Z;
  Session_Current3 : Z;
  Session_Power : Z
}.

Record Log := mkLog {
  Log_Session : Z;
  Log_MaxCurrent : Z;
  Log_StartTotal : Z;
  Log_Energy : Z;
  Log_Start : Z;
  Log_End : Z;
  Log_EndReason : Z;
  Log_RFIDTag : string;
  Log_RFIDClass : string
}.

(** [udpLog] is like [Log], but holds the JSON tags. *)
Record udpLog := mkUdpLog {
  udpLog_Session : Z;
  udpLog_MaxCurrent : Z;
  udpLog_StartTotal : Z;
  udpLog_Energy : Z;
  udpLog_Start : Z;
  udpLog_End : Z;
  udpLog_EndReason : Z;
  udpLog_RFIDTag : string;
  udpLog_RFIDClass : string
}.

(** The zero values of [var s System] and the like. *)
Definition System_zero : System := mkSystem "" "" "" 0 0 0.
Definition Config_zero : Config := mkConfig 0 0 0 0 0 0.
Definition Session_zero : Session := mkSession 0 0 0 0 0 0 0 0 0.
Definition udpLog_zero : udpLog := mkUdpLog 0 0 0 0 0 0 0 "" "".

(** The conversion [Log(l)]. *)
Definition Log_of (l : udpLog) : Log :=
  mkLog (udpLog_Session l) (udpLog_MaxCurrent l) (udpLog_StartTotal l)
        (udpLog_Energy l) (udpLog_Start l) (udpLog_End l)
        (udpLog_EndReason l) (udpLog_RFIDTag l) (udpLog_RFIDClass l).

(** The struct tags: every field with the key it decodes from. *)
Definition System_fields : list (json.field System) :=
  let '(fld, int, str) := (json.Build_field System, @json.store_int System,
                     @json.store_string System) in
  [ fld "Product" (str (fun x s => mkSystem x (System_Serial s) (System_Firmware s)
        (System_COMModule s) (System_Backend s) (System_DIPs s)));
    fld "Serial" (str (fun x s => mkSystem (System_Product s) x (System_Firmware s)
        (System_COMModule s) (System_Backend s) (System_DIPs s)));
    fld "Firmware" (str (fun x s => mkSystem (System_Product s) (System_Serial s) x
        (System_COMModule s) (System_Backend s) (System_DIPs s)));
    fld "COM-module" (int (fun x s => mkSystem (System_Product s) (System_Serial s)
        (System_Firmware s) x (System_Backend s) (System_DIPs s)));
    fld "Backend" (int (fun x s => mkSystem (System_Product s) (System_Serial s)
        (System_Firmware s) (System_COMModule s) x (System_DIPs s)));
    fld "DIP-Sw" (json.store_Unmarshaler System_DIPs
        (fun x s => mkSystem (System_Product s) (System_Serial s)
           (System_Firmware s) (System_COMModule s) (System_Backend s) x)
        DIPs_UnmarshalJSON) ].

Definition Config_fields : list (json.field Config) :=
  let '(fld, int) := (json.Build_field Config, @json.store_int Config) in
  [ fld "State" (int (fun x c => mkConfig x (Config_Plug c) (Config_MaxCurrent c)
        (Config_CurrentLimit c) (Config_EnergyLimit c) (Config_Seconds c)));
    fld "Plug" (int (fun x c => mkConfig (Config_State c) x (Config_MaxCurrent c)
        (Config_CurrentLimit c) (Config_EnergyLimit c) (Config_Seconds c)));
    fld "Curr HW" (int (fun x c => mkConfig (Config_State c) (Config_Plug c) x
        (Config_CurrentLimit c) (Config_EnergyLimit c) (Config_Seconds c)));
    fld "Curr user" (int (fun x c => mkConfig (Config_State c) (Config_Plug c)
        (Config_MaxCurrent c) x (Config_EnergyLimit c) (Config_Seconds c)));
    fld "Setenergy" (int (fun x c => mkConfig (Config_State c) (Config_Plug c)
        (Config_MaxCurrent c) (Config_CurrentLimit c) x (Config_Seconds c)));
    fld "Sec" (int (fun x c => mkConfig (Config_State c) (Config_Plug c)
        (Config_MaxCurrent c) (Config_CurrentLimit c) (Config_EnergyLimit c) x)) ].

Definition Session_fields : list (json.field Session) :=
  let '(fld, int) := (json.Build_field Session, @json.store_int Session) in
  [ fld "E pres" (int (fun x s => mkSession x (Session_Total s) (Session_Voltage1 s)
        (Session_Voltage2 s) (Session_Voltage3 s) (Session_Current1 s)
        (Session_Current2 s) (Session_Current3 s) (Session_Power s)));
    fld "E total" (int (fun x s => mkSession (Session_Energy s) x (Session_Voltage1 s)
        (Session_Voltage2 s) (Session_Voltage3 s) (Session_Current1 s)
        (Session_Current2 s) (Session_Current3 s) (Session_Power s)));
    fld "U1" (int (fun x s => mkSession (Session_Energy s) (Session_Total s) x
        (Session_Voltage2 s) (Session_Voltage3 s) (Session_Current1 s)
        (Session_Current2 s) (Session_Current3 s) (Session_Power s)));
    fld "U2" (int (fun x s => mkSession (Session_Energy s) (Session_Total s)
        (Session_Voltage1 s) x (Session_Voltage3 s) (Session_Current1 s)
        (Session_Current2 s) (Session_Current3 s) (Session_Power s)));
    fld "U3" (int (fun x s => mkSession (Session_Energy s) (Session_Total s)
        (Session_Voltage1 s) (Session_Voltage2 s) x (Session_Current1 s)
        (Session_Current2 s) (Session_Current3 s) (Session_Power s)));
    fld "I1" (int (fun x s => mkSession (Session_Energy s) (Session_Total s)
        (Session_Voltage1 s) (Session_Voltage2 s) (Session_Voltage3 s) x
        (Session_Current2 s) (Session_Current3 s) (Session_Power s)));
    fld "I2" (int (fun x s => mkSession (Session_Energy s) (Session_Total s)
        (Session_Voltage1 s) (Session_Voltage2 s) (Session_Voltage3 s)
        (Session_Current1 s) x (Session_Current3 s) (Session_Power s)));
    fld "I3" (int (fun x s => mkSession (Session_Energy s) (Session_Total s)
        (Session_Voltage1 s) (Session_Voltage2 s) (Session_Voltage3 s)
        (Session_Current1 s) (Session_Current2 s) x (Session_Power s)));
    fld "P" (int (fun x s => mkSession (Session_Energy s) (Session_Total s)
        (Session_Voltage1 s) (Session_Voltage2 s) (Session_Voltage3 s)
        (Session_Current1 s) (Session_Current2 s) (Session_Current3 s) x)) ].

Definition udpLog_set_Start (x : Z) (l : udpLog) : udpLog :=
  mkUdpLog (udpLog_Session l) (udpLog_MaxCurrent l) (udpLog_StartTotal l)
           (udpLog_Energy l) x (udpLog_End l) (udpLog_EndReason l)
           (udpLog_RFIDTag l) (udpLog_RFIDClass l).

Definition udpLog_set_End (x : Z) (l : udpLog) : udpLog :=
  mkUdpLog (udpLog_Session l) (udpLog_MaxCurrent l) (udpLog_StartTotal l)
           (udpLog_Energy l) (udpLog_Start l) x (udpLog_EndReason l)
           (udpLog_RFIDTag l) (udpLog_RFIDClass l).

(** [Start] and [End] carry no tag, so they decode from the keys of
    their own names. *)
Definition udpLog_fields : list (json.field udpLog) :=
  let '(fld, int, str) := (json.Build_field udpLog, @json.store_int udpLog,
                     @json.store_string udpLog) in
  [ fld "Session ID" (int (fun x l => mkUdpLog x (udpLog_MaxCurrent l)
        (udpLog_StartTotal l) (udpLog_Energy l) (udpLog_Start l) (udpLog_End l)
        (udpLog_EndReason l) (udpLog_RFIDTag l) (udpLog_RFIDClass l)));
    fld "Curr HW" (int (fun x l => mkUdpLog (udpLog_Session l) x
        (udpLog_StartTotal l) (udpLog_Energy l) (udpLog_Start l) (udpLog_End l)
        (udpLog_EndReason l) (udpLog_RFIDTag l) (udpLog_RFIDClass l)));
    fld "E Start" (int (fun x l => mkUdpLog (udpLog_Session l) (udpLog_MaxCurrent l)
        x (udpLog_Energy l) (udpLog_Start l) (udpLog_End l)
        (udpLog_EndReason l) (udpLog_RFIDTag l) (udpLog_RFIDClass l)));
    fld "E Pres" (int (fun x l => mkUdpLog (udpLog_Session l) (udpLog_MaxCurrent l)
        (udpLog_StartTotal l) x (udpLog_Start l) (udpLog_End l)
        (udpLog_EndReason l) (udpLog_RFIDTag l) (udpLog_RFIDClass l)));
    fld "Start" (int udpLog_set_Start);
    fld "End" (int udpLog_set_End);
    fld "reason" (int (fun x l => mkUdpLog (udpLog_Session l) (udpLog_MaxCurrent l)
        (udpLog_StartTotal l) (udpLog_Energy l) (udpLog_Start l) (udpLog_End l)
        x (udpLog_RFIDTag l) (udpLog_RFIDClass l)));
    fld "RFID tag" (str (fun x l => mkUdpLog (udpLog_Session l) (udpLog_MaxCurrent l)
        (udpLog_StartTotal l) (udpLog_Energy l) (udpLog_Start l) (udpLog_End l)
        (udpLog_EndReason l) x (udpLog_RFIDClass l)));
    fld "RFID class" (str (fun x l => mkUdpLog (udpLog_Session l) (udpLog_MaxCurrent l)
        (udpLog_StartTotal l) (udpLog_Energy l) (udpLog_Start l) (udpLog_End l)
        (udpLog_EndReason l) (udpLog_RFIDTag l) x)) ].

(** The local [times] struct of [udpLog.UnmarshalJSON]. *)
Record times := mkTimes { times_Start : string; times_End : string }.

Definition times_zero : times := mkTimes "" "".

Definition times_started : json.field times :=
  json.Build_field times "started[s]"
    (json.store_Number (fun x t => mkTimes x (times_End t))).

Definition times_ended : json.field times :=
  json.Build_field times "ended[s]"
    (json.store_Number (fun x t => mkTimes (times_Start t) x)).

Definition times_fields : list (json.field times) := [times_started; times_ended].

(** [udpLog.UnmarshalJSON]: the receiver after the call, and the error.
    The first pass decodes through [type T *udpLog], which has no
    methods; the second reads the two time stamps. *)
Definition udpLog_UnmarshalJSON (data : JSON) (l : udpLog) : udpLog * option error :=
  match json.Unmarshal_struct udpLog_fields data l with
  | (l1, Some e) => (l1, Some e)
  | (l1, None) =>
      match json.Unmarshal_struct times_fields data times_zero with
      | (_, Some e) => (l1, Some e)
      | (t, None) =>
          let l2 :=
            match json.Number_Int64 (times_Start t) with
            | (i, None) => udpLog_set_Start i l1
            | (_, Some _) => l1
            end in
          let l3 :=
            match json.Number_Int64 (times_End t) with
            | (i, None) => udpLog_set_End i l2
            | (_, Some _) => l2
            end in
          (l3, None)
      end
  end.

(** ** The transport *)

(** What one exchange with the wallbox comes to: [DialUDP] fails, the
    write fails, reading one JSON value from the socket fails (the two
    second deadline passes, or the bytes are not JSON), or a value
    arrives. *)
Inductive Reply :=
| DialError (e : error)
| WriteError (e : error)
| ReadError (e : error)
| Payload (j : JSON).

(** The wallbox and the network, seen from the client: the reply to a
    command, given the commands of the exchanges made before it. *)
Definition Device := list string -> string -> Reply.

(** [Decoder.Decode(&ptr)], where [ptr] holds a pointer to the target:
    [null] leaves the target alone, any other value goes to the decoder
    of the target's type. *)
Definition Decoder_Decode {T : Type} (decode : JSON -> T -> T * option error)
           (j : JSON) (target : T) : T * option error :=
  match j with
  | JNull => (target, None)
  | _ => decode j target
  end.

Section Client.

Variable dev : Device.

(** [udp.msg]: the target after the call, the error, and the commands
    of all exchanges so far, [sent] being those made before. *)
Definition udp_msg {T : Type} (cmd : string)
           (decode : JSON -> T -> T * option error) (target : T)
           (sent : list string) : T * option error * list string :=
  let sent' := (sent ++ [cmd])%list in
  match dev sent cmd with
  | DialError e => (target, Some e, sent')
  | WriteError e => (target, Some e, sent')
  | ReadError e => (target, Some e, sent')
  | Payload j =>
      let '(t, err) := Decoder_Decode decode j target in (t, err, sent')
  end.

(** The three reports.  The first component is the returned pointer,
    [None] standing for [nil]. *)
Definition udp_System (sent : list string)
  : option System * option error * list string :=
  let '(s, err, sent') :=
    udp_msg "report 1" (json.Unmarshal_struct System_fields) System_zero sent in
  (Some s, err, sent').

Definition udp_Config (sent : list string)
  : option Config * option error * list string :=
  let '(c, err, sent') :=
    udp_msg "report 2" (json.Unmarshal_struct Config_fields) Config_zero sent in
  (Some c, err, sent').

Definition udp_Session (sent : list string)
  : option Session * option error * list string :=
  let '(s, err, sent') :=
    udp_msg "report 3" (json.Unmarshal_struct Session_fields) Session_zero sent in
  (Some s, err, sent').

(** [hist[len(hist)-1].Session]. *)
Definition last_Session (hist : list Log) : Z :=
  Log_Session (nth (List.length hist - 1)%nat hist (Log_of udpLog_zero)).

(** The loop of [udp.History] from index [i] on.  The returned slice
    is [None] for [nil]; the outer [None] is a loop that ran out of
    [fuel]. *)
Fixpoint History_loop (fuel : nat) (i : Z) (hist : list Log)
         (sent : list string)
  : option (option (list Log) * option error * list string) :=
  if i <=? 130 then
    match fuel with
    | O => None
    | S fuel' =>
        let cmd := "report " ++ fmt.d i in
        let '(l, err, sent') := udp_msg cmd udpLog_UnmarshalJSON udpLog_zero sent in
        match err with
        | Some e => Some (None, Some e, sent')
        | None =>
            if udpLog_Session l <? 0 then Some (Some hist, None, sent')
            else if udpLog_Session l =? 0 then
              History_loop fuel' (i + 1) hist sent'
            else if Nat.ltb 0 (List.length hist)
                    && (udpLog_Session l =? last_Session hist) then
              History_loop fuel' (i + 1) hist sent'
            else History_loop fuel' (i + 1) (hist ++ [Log_of l])%list sent'
        end
    end
  else Some (Some hist, None, sent).

(** [udp.History]. *)
Definition udp_History (sent : list string)
  : option (option (list Log) * option error * list string) :=
  History_loop 31 100 [] sent.

End Client.

(** ** The mutex of [udp.msg] *)

Module Mutex.

(** Where a goroutine stands in [udp.msg]: outside it, at
    [u.mu.Lock()], at [net.DialUDP], at [conn.Write], at the read
    ([SetReadDeadline] and [Decode]), at the deferred [conn.Close()],
    at the deferred [u.mu.Unlock()]. *)
Inductive pc := Idle | AtLock | Dialing | Writing | Reading | Closing | Unlocking.

(** One client: the state of [u.mu] and the place of every goroutine. *)
Record state := mkState { locked : bool; at_ : nat -> pc }.

(** One step of one goroutine: the place it leaves, the mutex before,
    the place it reaches, the mutex after.  [Lock] goes through only
    when the mutex is free; a failed dial skips to [Unlock], for no
    [Close] is deferred yet; a failed write skips the read. *)
Inductive thread_step : pc -> bool -> pc -> bool -> Prop :=
| step_call m : thread_step Idle m AtLock m
| step_lock : thread_step AtLock false Dialing true
| step_dial_ok m : thread_step Dialing m Writing m
| step_dial_err m : thread_step Dialing m Unlocking m
| step_write_ok m : thread_step Writing m Reading m
| step_write_err m : thread_step Writing m Closing m
| step_read m : thread_step Reading m Closing m
| step_close m : thread_step Closing m Unlocking m
| step_unlock m : thread_step Unlocking m Idle false.

(** A step of the client: some goroutine [g] moves, the others stay. *)
Definition step (s s' : state) : Prop :=
  exists g, thread_step (at_ s g) (locked s) (at_ s' g) (locked s')
            /\ forall h, h <> g -> at_ s' h = at_ s h.

Inductive reachable : state -> Prop :=
| reach_init s : locked s = false -> (forall g, at_ s g = Idle) -> reachable s
| reach_step s s' : reachable s -> step s s' -> reachable s'.

(** The goroutine has an exchange in flight: its socket is about to
    be dialled, is open, or is being closed. *)
Definition in_flight (p : pc) : bool :=
  match p with Dialing | Writing | Reading | Closing => true | _ => false end.

(** The goroutine holds the mutex. *)
Definition holds (p : pc) : bool :=
  match p with Idle | AtLock => false | _ => true end.

(** The state in which goroutine [g] stands at the [g]-th place of
    [places], and any further goroutine is outside [msg]. *)
Definition of_list (m : bool) (places : list pc) : state :=
  mkState m (fun g => nth g places Idle).

(** Goroutine 0 is reading its reply while goroutine 1 waits at
    [Lock]. *)
Definition busy : state := of_list true [Reading; AtLock].

End Mutex.

(** ** Notions of the specification *)

(** These follow the words of the specification, and are what the
    theorems compare the client with. *)
Module Spec.

(** A hex digit, in either case. *)
Definition is_hex_digit (c : ascii) : bool :=
  let b := strconv.byte_of c in
  ((48 <=? b) && (b <=? 57)) || ((97 <=? b) && (b <=? 102))
  || ((65 <=? b) && (b <=? 70)).

Fixpoint all_hex (s : string) : bool :=
  match s with
  | EmptyString => true
  | String c s' => is_hex_digit c && all_hex s'
  end.

(** The textual form [0x<hex>]: the prefix, then one or more hex
    digits. *)
Definition form_0x_hex (s : string) : bool :=
  match s with
  | String "0" (String "x" (String c r)) => all_hex (String c r)
  | _ => false
  end.

Definition hex_digit_value (c : ascii) : Z :=
  let b := strconv.byte_of c in
  if b <=? 57 then b - 48 else if b <=? 70 then b - 55 else b - 87.

(** The number a run of hex digits denotes, continuing from [acc]. *)
Fixpoint hex_value (acc : Z) (s : string) : Z :=
  match s with
  | EmptyString => acc
  | String c s' => hex_value (acc * 16 + hex_digit_value c) s'
  end.

(** What is left of a number's text once an optional sign is taken. *)
Definition unsigned_part (s : string) : string :=
  match s with
  | String c r => if Ascii.eqb c "+" || Ascii.eqb c "-" then r else s
  | EmptyString => s
  end.

(** A value the two time stamps put up with: nothing, a number, or a
    string that holds a number. *)
Definition numeric (v : JSON) : bool :=
  match v with
  | JNull | JNumber _ => true
  | JString s => json.isValidNumber s
  | _ => false
  end.

Definition is_started (key : string) : bool := json.equalFold "started[s]" key.
Definition is_ended (key : string) : bool := json.equalFold "ended[s]" key.

(** The text of the last member under a key that holds a number or a
    string, [cur] when there is none. *)
Fixpoint time_text (is_key : string -> bool) (members : list (string * JSON))
         (cur : string) : string :=
  match members with
  | [] => cur
  | (k, v) :: rest =>
      time_text is_key rest
        (if is_key k then
           match v with JNumber lit => lit | JString s => s | _ => cur end
         else cur)
  end.

(** Every member under one of the two keys is [numeric]. *)
Definition times_numeric (members : list (string * JSON)) : bool :=
  forallb (fun kv => negb (is_started (fst kv) || is_ended (fst kv))
                     || numeric (snd kv)) members.

(** A time stamp takes the text when it is a decimal [int64], and
    keeps [old] otherwise. *)
Definition coerce (text : string) (old : Z) : Z :=
  match strconv.ParseInt text 10 64 with
  | (i, None) => i
  | (_, Some _) => old
  end.

(** Rules 2 to 4 of the history aggregator on one decoded entry: an
    empty slot and a repeat of the last accepted entry are skipped,
    any other entry is appended. *)
Definition accept (hist : list Log) (l : udpLog) : list Log :=
  if udpLog_Session l =? 0 then hist
  else match rev hist with
       | last :: _ =>
           if udpLog_Session l =? Log_Session last then hist
           else (hist ++ [Log_of l])%list
       | [] => (hist ++ [Log_of l])%list
       end.

Definition accepted (entries : list udpLog) : list Log :=
  fold_left accept entries [].

(** The command for the [k]-th slot, and the commands of the first
    [n] slots. *)
Definition slot_cmd (k : nat) : string := "report " ++ fmt.d (100 + Z.of_nat k).

Definition cmds (n : nat) : list string := map slot_cmd (seq 0 n).

(** What the exchange for the [k]-th slot yields when the slots before
    it have been asked in order: the decoded entry and the error. *)
Definition slot (dev : Device) (sent : list string) (k : nat)
  : udpLog * option error :=
  let '(l, err, _) :=
    udp_msg dev (slot_cmd k) udpLog_UnmarshalJSON udpLog_zero
            (sent ++ cmds k)%list in
  (l, err).

(** The aggregator over the outcomes of the slots still to ask,
    [count] slots having been asked: the slice, the error, and the
    number of slots asked in all. *)
Fixpoint aggregate (outs : list (udpLog * option error)) (hist : list Log)
         (count : nat) : option (list Log) * option error * nat :=
  match outs with
  | [] => (Some hist, None, count)
  | (_, Some e) :: _ => (None, Some e, S count)
  | (l, None) :: rest =>
      if udpLog_Session l <? 0 then (Some hist, None, S count)
      else aggregate rest (accept hist l) (S count)
  end.

(** No two neighbours of the list carry the same session number. *)
Definition adjacent_distinct (hist : list Log) : Prop :=
  forall i d, (S i < List.length hist)%nat ->
              Log_Session (nth i hist d) <> Log_Session (nth (S i) hist d).

(** [f] holds of the [n] numbers from [x] on. *)
Fixpoint all_from (n : nat) (x : Z) (f : Z -> bool) : bool :=
  match n with
  | O => true
  | S k => f x && all_from k (x + 1) f
  end.

(** Decoding what the stand-alone client's [String] writes for [x]
    gives [x] back. *)
Definition round_trips (x : Z) : bool :=
  match DIPs_UnmarshalJSON (JString (DIPs_String_0x x)) 0 with
  | (y, None) => y =? x
  | (_, Some _) => false
  end.

(** The same with the [String] of [keba.go]. *)
Definition round_trips_keba (x : Z) : bool :=
  match DIPs_UnmarshalJSON (JString (DIPs_String x)) 0 with
  | (y, None) => y =? x
  | (_, Some _) => false
  end.

(** A value an [int] field refuses: anything but [null] and a number
    that is a decimal [int64]. *)
Definition refused_as_int (v : JSON) : bool :=
  match v with
  | JNull => false
  | JNumber lit =>
      match strconv.ParseInt lit 10 64 with
      | (_, None) => false
      | (_, Some _) => true
      end
  | _ => true
  end.

(** The [j]-th slot is answered without error by an entry that does
    not end the history. *)
Definition goes_on (dev : Device) (sent : list string) (j : nat) : Prop :=
  snd (slot dev sent j) = None /\ 0 <= udpLog_Session (fst (slot dev sent j)).

(** What the loop keeps true of the list it builds. *)
Definition well_formed (hist : list Log) : Prop :=
  Forall (fun l => 0 < Log_Session l) hist /\ adjacent_distinct hist.

End Spec.

(** ** Sample devices *)

Module Sample.

(** A history slot reply carrying the session number [n]. *)
Definition entry (n : Z) : JSON :=
  JObject [("Session ID", JNumber (fmt.d n)); ("Curr HW", JNumber "16000");
           ("started[s]", JNumber "1200"); ("ended[s]", JString "1500");
           ("reason", JNumber "1"); ("RFID tag", JString "04ab")].

Definition timeout : error := NetError "read: i/o timeout".

(** A wallbox whose slots 100, 101, ... hold the session numbers
    [sessions]; it stays silent on every other command. *)
Definition wallbox (sessions : list Z) : Device :=
  fun _ cmd =>
    match find (fun p => String.eqb (fst p) cmd)
               (combine (Spec.cmds (List.length sessions)) sessions) with
    | Some (_, n) => Payload (entry n)
    | None => ReadError timeout
    end.

(** The slots of the termination example. *)
Definition seven : list Z := [5; 5; 6; 0; 7; -1; 8].

(** Slots that repeat a session number after another one, all 31 in
    use or empty. *)
Definition repeating : list Z := 5 :: 6 :: 5 :: repeat 0 28.

(** A wallbox that answers two slots and then no more. *)
Definition fading : list Z := [3; 4].

(** A reply to [report 1] whose DIP switches have the top bit set. *)
Definition system_reply : JSON :=
  JObject [("Product", JString "KC-P30"); ("Serial", JString "17668298");
           ("DIP-Sw", JString "0x8000"); ("Firmware", JString "P30 v 3.10.16");
           ("Backend", JNumber "1")].

(** A reply to [report 2] with a string where a number belongs. *)
Definition config_reply : JSON :=
  JObject [("State", JNumber "3"); ("Plug", JString "7"); ("Sec", JNumber "9")].

(** The key [started[s]] written with the long s, U+017F, in front. *)
Definition long_s_started : string :=
  String (ascii_of_nat 197) (String (ascii_of_nat 191) "tarted[s]").

(** A wallbox that gives the same answer to every command. *)
Definition constant (j : JSON) : Device := fun _ _ => Payload j.

End Sample.

(** ** The texts of the DIP switches *)

Module DipSpec.

(** A lower-case hex digit. *)
Definition is_lower_hex (c : ascii) : bool :=
  let b := strconv.byte_of c in
  ((48 <=? b) && (b <=? 57)) || ((97 <=? b) && (b <=? 102)).

Fixpoint all_lower_hex (s : string) : bool :=
  match s with
  | EmptyString => true
  | String c s' => is_lower_hex c && all_lower_hex s'
  end.

(** The number a run of binary digits denotes, continuing from [acc];
    [None] when a character is neither [0] nor [1]. *)
Fixpoint bin_value (acc : Z) (s : string) : option Z :=
  match s with
  | EmptyString => Some acc
  | String c s' =>
      if Ascii.eqb c "0" then bin_value (2 * acc) s'
      else if Ascii.eqb c "1" then bin_value (2 * acc + 1) s'
      else None
  end.

(** The text of the stand-alone client for [x] is [0x], then lower-case
    hex digits that denote [x], with no zero in front of another
    digit. *)
Definition hex_text_ok (x : Z) : bool :=
  let s := DIPs_String_0x x in
  let ds := strings.drop 2 s in
  Spec.form_0x_hex s && all_lower_hex ds
  && (Spec.hex_value 0 ds =? x)
  && match ds with
     | String "0" (String _ _) => false
     | _ => true
     end.

(** The text of [keba.go] for [x] is sixteen binary digits that denote
    [x]. *)
Definition bin_text_ok (x : Z) : bool :=
  let s := DIPs_String x in
  (Nat.eqb (String.length s) 16)
  && match bin_value 0 s with Some y => y =? x | None => false end.

End DipSpec.

(** ** The history poll of the exporter *)

Module Exporter.

(** What the [/history] handler serves, [None] for the nil slice the
    variable starts as, and the commands sent so far. *)
Definition served := (option (list Log) * list string)%type.

(** One round of the loop of [history]: a failed call is logged and
    leaves [hist] alone, a successful one replaces it.  The outer [None]
    is a [History] that ran out of fuel. *)
Definition history_tick (dev : Device) (st : served) : option served :=
  let '(hist, sent) := st in
  match udp_History dev sent with
  | None => None
  | Some (h, err, sent') =>
      match err with
      | Some _ => Some (hist, sent')
      | None => Some (h, sent')
      end
  end.

(** The first [n] rounds of the loop. *)
Fixpoint history_rounds (dev : Device) (n : nat) (st : served) : option served :=
  match n with
  | O => Some st
  | S k =>
      match history_tick dev st with
      | None => None
      | Some st' => history_rounds dev k st'
      end
  end.

(** The list the handler serves is nil or a list as [History] builds
    them. *)
Definition servable (hist : option (list Log)) : Prop :=
  forall h, hist = Some h ->
    Forall (fun l => 0 < Log_Session l) h
    /\ Spec.adjacent_distinct h
    /\ (List.length h <= 31)%nat.

End Exporter.

(** ** The metrics of the exporter *)

Module Metrics.

Section Floats.

(** Go's [float64], the conversion [float64(i)] of an [int] (and of an
    untyped constant such as [1000]), and the division of two floats. *)
Variable float : Type.
Variable float64 : Z -> float.
Variable fdiv : float -> float -> float.

(** [btof]. *)
Definition btof (b : bool) : float := if b then float64 1 else float64 0.

(** A [prometheus.GaugeVec] with one label: the value of each child
    made so far, by the value of its label. *)
Definition GaugeVec := string -> option float.

(** [gauge(vec, label).Set(v)]: the child is made when it is not there
    yet, and set.  (With one label value for one label name,
    [GetMetricWithLabelValues] has no error, so [gauge] does not
    panic.) *)
Definition gauge_Set (vec : GaugeVec) (label : string) (v : float) : GaugeVec :=
  fun l => if String.eqb l label then Some v else vec l.

(** The package-level metrics: the gauges, the two [F] registers behind
    the energy counters, and the two scrape counters, each as the number
    of its [Inc] calls. *)
Record state := mkState {
  voltage : GaugeVec;
  current : GaugeVec;
  currentLimit : GaugeVec;
  power : float;
  whTotal : float;
  whSession : float;
  energySessionLimit : float;
  status : float;
  plugStatus : GaugeVec;
  udpTotal : nat;
  udpErrs : nat
}.

Definition set_voltage (x : GaugeVec) (m : state) : state :=
  mkState x (current m) (currentLimit m) (power m) (whTotal m) (whSession
    m) (energySessionLimit m) (status m) (plugStatus m) (udpTotal m)
    (udpErrs m).

Definition set_current (x : GaugeVec) (m : state) : state :=
  mkState (voltage m) x (currentLimit m) (power m) (whTotal m) (whSession
    m) (energySessionLimit m) (status m) (plugStatus m) (udpTotal m)
    (udpErrs m).

Definition set_currentLimit (x : GaugeVec) (m : state) : state :=
  mkState (voltage m) (current m) x (power m) (whTotal m) (whSession m)
    (energySessionLimit m) (status m) (plugStatus m) (udpTotal m) (udpErrs
    m).

Definition set_power (x : float) (m : state) : state :=
  mkState (voltage m) (current m) (currentLimit m) x (whTotal m)
    (whSession m) (energySessionLimit m) (status m) (plugStatus m) (udpTotal
    m) (udpErrs m).

Definition set_whTotal (x : float) (m : state) : state :=
  mkState (voltage m) (current m) (currentLimit m) (power m) x (whSession
    m) (energySessionLimit m) (status m) (plugStatus m) (udpTotal m)
    (udpErrs m).

Definition set_whSession (x : float) (m : state) : state :=
  mkState (voltage m) (current m) (currentLimit m) (power m) (whTotal m) x
    (energySessionLimit m) (status m) (plugStatus m) (udpTotal m) (udpErrs
    m).

Definition set_status (x : float) (m : state) : state :=
  mkState (voltage m) (current m) (currentLimit m) (power m) (whTotal m)
    (whSession m) (energySessionLimit m) x (plugStatus m) (udpTotal m)
    (udpErrs m).

Definition set_plugStatus (x : GaugeVec) (m : state) : state :=
  mkState (voltage m) (current m) (currentLimit m) (power m) (whTotal m)
    (whSession m) (energySessionLimit m) (status m) x (udpTotal m) (udpErrs
    m).

Definition set_udpTotal (x : nat) (m : state) : state :=
  mkState (voltage m) (current m) (currentLimit m) (power m) (whTotal m)
    (whSession m) (energySessionLimit m) (status m) (plugStatus m) x
    (udpErrs m).

Definition set_udpErrs (x : nat) (m : state) : state :=
  mkState (voltage m) (current m) (currentLimit m) (power m) (whTotal m)
    (whSession m) (energySessionLimit m) (status m) (plugStatus m) (udpTotal
    m) x.

Definition Inc_udpTotal (m : state) : state := set_udpTotal (S (udpTotal m)) m.
Definition Inc_udpErrs (m : state) : state := set_udpErrs (S (udpErrs m)) m.

Definition PlugStation : Z := 1.
Definition PlugLocked : Z := 2.
Definition PlugEV : Z := 4.

(** The branch of [metrics] for a [Config] that came without error. *)
Definition export_Config (cfg : Config) (m : state) : state :=
  let m := set_currentLimit
             (gauge_Set (currentLimit m) "hw"
                (fdiv (float64 (Config_MaxCurrent cfg)) (float64 1000))) m in
  let m := set_currentLimit
             (gauge_Set (currentLimit m) "user"
                (fdiv (float64 (Config_CurrentLimit cfg)) (float64 1000))) m in
  let m := set_status (float64 (Config_State cfg)) m in
  let m := set_plugStatus
             (gauge_Set (plugStatus m) "station"
                (btof (negb (Z.land (Config_Plug cfg) PlugStation =? 0)))) m in
  let m := set_plugStatus
             (gauge_Set (plugStatus m) "locked"
                (btof (negb (Z.land (Config_Plug cfg) PlugLocked =? 0)))) m in
  set_plugStatus
    (gauge_Set (plugStatus m) "ev"
       (btof (negb (Z.land (Config_Plug cfg) PlugEV =? 0)))) m.

(** The end of a round of [metrics], for a [Session] that came without
    error; [energy] is the constant the two energies are divided by. *)
Definition export_Session (energy : Z) (sess : Session) (m : state) : state :=
  let m := set_voltage
             (gauge_Set (voltage m) "1" (float64 (Session_Voltage1 sess))) m in
  let m := set_voltage
             (gauge_Set (voltage m) "2" (float64 (Session_Voltage2 sess))) m in
  let m := set_voltage
             (gauge_Set (voltage m) "3" (float64 (Session_Voltage3 sess))) m in
  let m := set_current
             (gauge_Set (current m) "1"
                (fdiv (float64 (Session_Current1 sess)) (float64 1000))) m in
  let m := set_current
             (gauge_Set (current m) "2"
                (fdiv (float64 (Session_Current2 sess)) (float64 1000))) m in
  let m := set_current
             (gauge_Set (current m) "3"
                (fdiv (float64 (Session_Current3 sess)) (float64 1000))) m in
  let m := set_power (fdiv (float64 (Session_Power sess)) (float64 1000)) m in
  let m := set_whTotal (fdiv (float64 (Session_Total sess)) (float64 energy)) m in
  set_whSession (fdiv (float64 (Session_Energy sess)) (float64 energy)) m.

(** One round of the loop of [metrics], in the exporter that also polls
    the history.  A failed [Config] is counted and logged, and the round
    goes on to [Session]; a failed [Session] ends the round.  [None] is
    the panic of reading through a nil pointer. *)
Definition metrics_tick (dev : Device) (st : state * list string)
  : option (state * list string) :=
  let '(m, sent) := st in
  let m := Inc_udpTotal m in
  let '(cfg, err, sent) := udp_Config dev sent in
  let after_config :=
    match err with
    | None =>
        match cfg with
        | Some c => Some (export_Config c m)
        | None => None
        end
    | Some _ => Some (Inc_udpErrs m)
    end in
  match after_config with
  | None => None
  | Some m =>
      let m := Inc_udpTotal m in
      let '(sess, err, sent) := udp_Session dev sent in
      match err with
      | Some _ => Some (Inc_udpErrs m, sent)
      | None =>
          match sess with
          | Some s => Some (export_Session 10 s m, sent)
          | None => None
          end
      end
  end.

(** One round of the loop of [main] in the exporter without the history
    poll: there a failed [Config] ends the round, and only the two
    current limits are taken from it. *)
Definition main_tick (dev : Device) (st : state * list string)
  : option (state * list string) :=
  let '(m, sent) := st in
  let m := Inc_udpTotal m in
  let '(cfg, err, sent) := udp_Config dev sent in
  match err with
  | Some _ => Some (Inc_udpErrs m, sent)
  | None =>
      match cfg with
      | None => None
      | Some c =>
          let m := set_currentLimit
                     (gauge_Set (currentLimit m) "hw"
                        (fdiv (float64 (Config_MaxCurrent c)) (float64 1000))) m in
          let m := set_currentLimit
                     (gauge_Set (currentLimit m) "user"
                        (fdiv (float64 (Config_CurrentLimit c)) (float64 1000))) m in
          let m := Inc_udpTotal m in
          let '(sess, err, sent) := udp_Session dev sent in
          match err with
          | Some _ => Some (Inc_udpErrs m, sent)
          | None =>
              match sess with
              | Some s => Some (export_Session 1000 s m, sent)
              | None => None
              end
          end
      end
  end.

(** The first [n] rounds of a loop whose round is [tick]. *)
Fixpoint rounds (tick : state * list string -> option (state * list string))
         (n : nat) (st : state * list string) : option (state * list string) :=
  match n with
  | O => Some st
  | S k =>
      match tick st with
      | None => None
      | Some st' => rounds tick k st'
      end
  end.

End Floats.

End Metrics.

(** A sample of the exporter's metrics, on the floats of the kernel. *)
Module MetricsSample.

(** [float64(i)] for an [i] below 2^63 in size. *)
Definition float64 (i : Z) : PrimFloat.float :=
  if i <? 0 then PrimFloat.opp (PrimFloat.of_uint63 (Uint63.of_Z (- i)))
  else PrimFloat.of_uint63 (Uint63.of_Z i).

(** The metrics before the first round: no child of a vector made yet,
    everything else zero. *)
Definition start : Metrics.state PrimFloat.float :=
  Metrics.mkState PrimFloat.float
    (fun _ => None) (fun _ => None) (fun _ => None)
    PrimFloat.zero PrimFloat.zero PrimFloat.zero PrimFloat.zero PrimFloat.zero
    (fun _ => None) 0 0.

(** A wallbox that does not answer [report 2] and answers [report 3]. *)
Definition half_deaf : Device :=
  fun _ cmd =>
    if String.eqb cmd "report 3" then
      Payload (JObject [("U1", JNumber "230"); ("I1", JNumber "15900");
                        ("P", JNumber "3657000"); ("E pres", JNumber "2301");
                        ("E total", JNumber "81234567")])
    else ReadError Sample.timeout.

End MetricsSample.

(** ** The register [F] of the exporter *)

Module Register.

Section Values.

(** The type of the value held, [float64] in the exporter. *)
Variable V : Type.

(** Where a goroutine stands: outside [Set] and [Get]; in [Set(v)] at
    [f.mu.Lock()], at [f.val = v], at the deferred [f.mu.Unlock()]; in
    [Get] at [f.mu.RLock()], at the read of [f.val], at the deferred
    [f.mu.RUnlock()] with the value read in hand. *)
Inductive pc :=
| Out
| SetLock (v : V)
| SetWrite (v : V)
| SetUnlock
| GetRLock
| GetRead
| GetRUnlock (r : V).

(** One register among its goroutines: the [sync.RWMutex] (whether a
    writer holds it, how many readers do), [f.val], the place of each
    goroutine, and, for the record, the values written and the values
    returned by [Get] so far. *)
Record state := mkState {
  writer : bool;
  readers : nat;
  val : V;
  at_ : list pc;
  written : list V;
  returned : list V
}.

(** [l] with its [g]-th element replaced. *)
Fixpoint upd (l : list pc) (g : nat) (p : pc) : list pc :=
  match l, g with
  | [], _ => []
  | _ :: t, O => p :: t
  | x :: t, S g' => x :: upd t g' p
  end.

(** A step of goroutine [g].  [Lock] goes through when nobody holds the
    mutex, [RLock] when no writer does.  (Go also holds new readers back
    while a writer waits, which only takes interleavings away.) *)
Inductive step : state -> state -> Prop :=
| step_Set g v s :
    nth_error (at_ s) g = Some Out ->
    step s (mkState (writer s) (readers s) (val s) (upd (at_ s) g (SetLock v))
                    (written s) (returned s))
| step_Lock g v s :
    nth_error (at_ s) g = Some (SetLock v) ->
    writer s = false -> readers s = O ->
    step s (mkState true (readers s) (val s) (upd (at_ s) g (SetWrite v))
                    (written s) (returned s))
| step_write g v s :
    nth_error (at_ s) g = Some (SetWrite v) ->
    step s (mkState (writer s) (readers s) v (upd (at_ s) g SetUnlock)
                    (v :: written s) (returned s))
| step_Unlock g s :
    nth_error (at_ s) g = Some SetUnlock ->
    step s (mkState false (readers s) (val s) (upd (at_ s) g Out)
                    (written s) (returned s))
| step_Get g s :
    nth_error (at_ s) g = Some Out ->
    step s (mkState (writer s) (readers s) (val s) (upd (at_ s) g GetRLock)
                    (written s) (returned s))
| step_RLock g s :
    nth_error (at_ s) g = Some GetRLock ->
    writer s = false ->
    step s (mkState (writer s) (S (readers s)) (val s) (upd (at_ s) g GetRead)
                    (written s) (returned s))
| step_read g s :
    nth_error (at_ s) g = Some GetRead ->
    step s (mkState (writer s) (readers s) (val s)
                    (upd (at_ s) g (GetRUnlock (val s)))
                    (written s) (returned s))
| step_RUnlock g r s :
    nth_error (at_ s) g = Some (GetRUnlock r) ->
    step s (mkState (writer s) (Nat.pred (readers s)) (val s) (upd (at_ s) g Out)
                    (written s) (r :: returned s)).

(** The states [n] goroutines reach from a register that holds [init]. *)
Inductive reachable (init : V) : state -> Prop :=
| reach_init n :
    reachable init (mkState false O init (repeat Out n) [] [])
| reach_step s s' : reachable init s -> step s s' -> reachable init s'.

(** The goroutine holds the mutex as a writer, as a reader. *)
Definition writing (p : pc) : bool :=
  match p with SetWrite _ | SetUnlock => true | _ => false end.

Definition reading (p : pc) : bool :=
  match p with GetRead | GetRUnlock _ => true | _ => false end.

(** The number of goroutines at a place that satisfies [f]. *)
Fixpoint count (f : pc -> bool) (l : list pc) : nat :=
  match l with
  | [] => O
  | p :: t => (if f p then 1 else 0) + count f t
  end.

(** A value is the one the register started with or one that was
    written. *)
Definition known (init : V) (s : state) (x : V) : Prop :=
  x = init \/ In x (written s).

(** What every reachable state of a register satisfies: the mutex
    counts its holders, a writer holds it alone, and every value in the
    register, in the hand of a reader or returned is [known]. *)
Definition invariant (init : V) (s : state) : Prop :=
  readers s = count reading (at_ s)
  /\ count writing (at_ s) = (if writer s then 1 else 0)%nat
  /\ (writer s = true -> readers s = O)
  /\ known init s (val s)
  /\ (forall g r, nth_error (at_ s) g = Some (GetRUnlock r) -> known init s r)
  /\ (forall r, In r (returned s) -> known init s r).

End Values.

(** Two goroutines on a register of integers that starts at 0: the
    first has taken the mutex to write 5 while the second waits to
    read. *)
Definition contended : state Z :=
  mkState Z true 0 0 [SetWrite Z 5; GetRLock Z] [] [].

End Register.

(** * Theorems *)

(** ** The history aggregator *)

Section History.

Variable dev : Device.
Variable sent : list string.

Lemma cmds_S n : Spec.cmds (S n) = (Spec.cmds n ++ [Spec.slot_cmd n])%list.
Proof.
  unfold Spec.cmds. rewrite seq_S, map_app. reflexivity.
Qed.

(** An exchange always extends the commands sent by its own. *)
Lemma udp_msg_slot k :
  udp_msg dev (Spec.slot_cmd k) udpLog_UnmarshalJSON udpLog_zero
          (sent ++ Spec.cmds k)%list
  = (fst (Spec.slot dev sent k), snd (Spec.slot dev sent k),
     (sent ++ Spec.cmds (S k))%list).
Proof.
  unfold Spec.slot, udp_msg. rewrite cmds_S, app_assoc.
  destruct (dev _ _); try reflexivity.
  destruct (Decoder_Decode _ _ _); reflexivity.
Qed.

Lemma last_Session_rev (hist : list Log) (x : Log) (tl : list Log) :
  rev hist = x :: tl -> last_Session hist = Log_Session x.
Proof.
  intros H. apply (f_equal (@rev Log)) in H. rewrite rev_involutive in H.
  subst hist. simpl. unfold last_Session.
  rewrite length_app. simpl.
  rewrite app_nth2 by lia.
  replace (_ - _)%nat with 0%nat by lia. reflexivity.
Qed.

(** The three tests of the loop body amount to [Spec.accept]. *)
Lemma body_accept (hist : list Log) (l : udpLog) :
  (if udpLog_Session l =? 0 then hist
   else if Nat.ltb 0 (List.length hist)
           && (udpLog_Session l =? last_Session hist)
        then hist else (hist ++ [Log_of l])%list)
  = Spec.accept hist l.
Proof.
  unfold Spec.accept. destruct (udpLog_Session l =? 0); [reflexivity|].
  destruct (rev hist) as [|x tl] eqn:E.
  - apply (f_equal (@rev Log)) in E. rewrite rev_involutive in E.
    subst hist. reflexivity.
  - rewrite (last_Session_rev _ _ _ E).
    assert (L : Nat.ltb 0 (List.length hist) = true).
    { apply Nat.ltb_lt. apply (f_equal (@List.length Log)) in E.
      rewrite length_rev in E. simpl in E. lia. }
    rewrite L. reflexivity.
Qed.

(** The loop from slot [k] on, with enough fuel for the slots left,
    is the aggregator over their outcomes. *)
Lemma History_loop_aggregate fuel : forall k hist,
  (fuel + k = 31)%nat ->
  History_loop dev fuel (100 + Z.of_nat k) hist (sent ++ Spec.cmds k)%list
  = Some (let '(r, e, c) :=
            Spec.aggregate (map (Spec.slot dev sent) (seq k fuel)) hist k in
          (r, e, (sent ++ Spec.cmds c)%list)).
Proof.
  induction fuel as [|fuel IH]; intros k hist Hk.
  - cbn [History_loop seq map Spec.aggregate].
    replace (100 + Z.of_nat k <=? 130) with false
      by (symmetry; apply Z.leb_gt; lia).
    reflexivity.
  - cbn [History_loop seq map Spec.aggregate].
    replace (100 + Z.of_nat k <=? 130) with true
      by (symmetry; apply Z.leb_le; lia).
    change ("report " ++ fmt.d (100 + Z.of_nat k)) with (Spec.slot_cmd k).
    rewrite udp_msg_slot.
    destruct (Spec.slot dev sent k) as [l [e|]]; cbn [fst snd].
    + reflexivity.
    + destruct (udpLog_Session l <? 0); [reflexivity|].
      rewrite <- body_accept.
      replace (100 + Z.of_nat k + 1) with (100 + Z.of_nat (S k)) by lia.
      destruct (udpLog_Session l =? 0); [apply IH; lia|].
      destruct (_ && _); apply IH; lia.
Qed.

Lemma udp_History_aggregate :
  udp_History dev sent
  = Some (let '(r, e, c) :=
            Spec.aggregate (map (Spec.slot dev sent) (seq 0 31)) [] 0 in
          (r, e, (sent ++ Spec.cmds c)%list)).
Proof.
  unfold udp_History.
  rewrite <- (History_loop_aggregate 31 0 []) by reflexivity.
  change (Spec.cmds 0) with (@nil string). rewrite app_nil_r. reflexivity.
Qed.

End History.

Section Aggregate.

Variable dev : Device.
Variable sent : list string.

Lemma aggregate_goes_on m : forall a hist rest,
  (forall j, (a <= j < a + m)%nat -> Spec.goes_on dev sent j) ->
  Spec.aggregate (map (Spec.slot dev sent) (seq a m) ++ rest)%list hist a
  = Spec.aggregate rest
      (fold_left Spec.accept
         (map (fun j => fst (Spec.slot dev sent j)) (seq a m)) hist)
      (a + m).
Proof.
  induction m as [|m IH]; intros a hist rest H.
  - simpl. rewrite Nat.add_0_r. reflexivity.
  - cbn [seq map app fold_left Spec.aggregate].
    destruct (H a ltac:(lia)) as [He Hs].
    destruct (Spec.slot dev sent a) as [l e]; cbn [fst snd] in *.
    subst e.
    replace (udpLog_Session l <? 0) with false
      by (symmetry; apply Z.ltb_ge; exact Hs).
    rewrite IH by (intros j Hj; apply H; lia).
    f_equal. lia.
Qed.

End Aggregate.

Lemma nth_last_rev (A : Type) (hist tl : list A) (x d : A) :
  rev hist = x :: tl -> nth (List.length hist - 1) hist d = x.
Proof.
  intros H. apply (f_equal (@rev A)) in H. rewrite rev_involutive in H.
  subst hist. simpl. rewrite length_app. simpl.
  rewrite app_nth2 by lia.
  replace (_ - _)%nat with 0%nat by lia. reflexivity.
Qed.

Lemma accept_well_formed (hist : list Log) (l : udpLog) :
  0 <= udpLog_Session l -> Spec.well_formed hist ->
  Spec.well_formed (Spec.accept hist l)
  /\ (List.length (Spec.accept hist l) <= S (List.length hist))%nat.
Proof.
  intros Hs [Hpos Hadj]. unfold Spec.accept.
  destruct (udpLog_Session l =? 0) eqn:E0; [split; [split; assumption | lia]|].
  apply Z.eqb_neq in E0.
  assert (Hp : Forall (fun l0 => 0 < Log_Session l0) (hist ++ [Log_of l])).
  { apply Forall_app. split; [assumption|].
    constructor; [simpl; lia | constructor]. }
  assert (Hlen : (List.length (hist ++ [Log_of l]) <= S (List.length hist))%nat).
  { rewrite length_app. simpl. lia. }
  destruct (rev hist) as [|x tl] eqn:Er.
  - apply (f_equal (@rev Log)) in Er. rewrite rev_involutive in Er. subst hist.
    split; [split; [exact Hp|] | exact Hlen].
    intros i d Hi. simpl in Hi. lia.
  - destruct (udpLog_Session l =? Log_Session x) eqn:Ex;
      [split; [split; assumption | lia]|].
    apply Z.eqb_neq in Ex.
    split; [split; [exact Hp|] | exact Hlen].
    intros i d Hi. rewrite length_app in Hi. simpl in Hi.
    destruct (Nat.eq_dec (S i) (List.length hist)) as [Hl|Hl].
    + rewrite app_nth1 by lia. rewrite app_nth2 by lia.
      replace (S i - List.length hist)%nat with 0%nat by lia.
      replace i with (List.length hist - 1)%nat by lia.
      rewrite (nth_last_rev _ _ _ _ d Er). simpl. congruence.
    + rewrite !app_nth1 by lia. apply Hadj. lia.
Qed.

Lemma aggregate_well_formed outs : forall hist c r e c',
  Spec.aggregate outs hist c = (Some r, e, c') ->
  Spec.well_formed hist ->
  Spec.well_formed r /\ (List.length r <= List.length hist + List.length outs)%nat.
Proof.
  induction outs as [|[l [e0|]] outs IH]; intros hist c r e c' H Hw.
  - simpl in H. inversion H; subst. split; [assumption | lia].
  - simpl in H. discriminate.
  - cbn [Spec.aggregate] in H.
    destruct (udpLog_Session l <? 0) eqn:En.
    + inversion H; subst. split; [assumption | simpl; lia].
    + apply Z.ltb_ge in En.
      destruct (accept_well_formed hist l En Hw) as [Hw' Hl].
      destruct (IH _ _ _ _ _ H Hw') as [Hr Hlr].
      split; [assumption | simpl; lia].
Qed.

Lemma accept_empty_slot (hist : list Log) (l : udpLog) :
  udpLog_Session l = 0 -> Spec.accept hist l = hist.
Proof.
  intros H. unfold Spec.accept. rewrite H. reflexivity.
Qed.

Lemma accept_first (l : udpLog) :
  udpLog_Session l <> 0 -> Spec.accept [] l = [Log_of l].
Proof.
  intros H. unfold Spec.accept. apply Z.eqb_neq in H. rewrite H. reflexivity.
Qed.

Lemma accept_repeat (older : list Log) (last : Log) (l : udpLog) :
  udpLog_Session l = Log_Session last ->
  Spec.accept (older ++ [last]) l = (older ++ [last])%list.
Proof.
  intros H. unfold Spec.accept. destruct (udpLog_Session l =? 0); [reflexivity|].
  rewrite rev_app_distr. cbn [rev app]. rewrite H, Z.eqb_refl. reflexivity.
Qed.

Lemma accept_other (older : list Log) (last : Log) (l : udpLog) :
  udpLog_Session l <> 0 -> udpLog_Session l <> Log_Session last ->
  Spec.accept (older ++ [last]) l = (older ++ [last] ++ [Log_of l])%list.
Proof.
  intros H0 Hl. unfold Spec.accept.
  apply Z.eqb_neq in H0. apply Z.eqb_neq in Hl.
  rewrite H0, rev_app_distr. cbn [rev app]. rewrite Hl.
  rewrite <- app_assoc. reflexivity.
Qed.

(** C1: when the slots 100 to 105 decode to entries with the session
    numbers 5, 5, 6, 0, 7 and -1, [History] returns the entries of the
    slots 100, 102 and 104 (session numbers 5, 6, 7) in that order, with
    no error, and its exchanges are those for 100 to 105: it stops at
    the negative number and asks nothing of slot 106, whatever that slot
    holds. *)
Theorem History_stops_at_negative (dev : Device) (sent : list string) :
  (forall k, (k < 6)%nat -> snd (Spec.slot dev sent k) = None) ->
  map (fun k => udpLog_Session (fst (Spec.slot dev sent k))) (seq 0 6)
  = [5; 5; 6; 0; 7; -1] ->
  udp_History dev sent
  = Some (Some [Log_of (fst (Spec.slot dev sent 0));
                Log_of (fst (Spec.slot dev sent 2));
                Log_of (fst (Spec.slot dev sent 4))],
          None,
          (sent ++ ["report 100"; "report 101"; "report 102"; "report 103";
                    "report 104"; "report 105"])%list)
  /\ map Log_Session [Log_of (fst (Spec.slot dev sent 0));
                      Log_of (fst (Spec.slot dev sent 2));
                      Log_of (fst (Spec.slot dev sent 4))] = [5; 6; 7].
Proof.
  intros Hok Hseq. rewrite udp_History_aggregate.
  cbn [seq map] in Hseq. injection Hseq as S0 S1 S2 S3 S4 S5.
  assert (Hgo : forall j, (0 <= j < 0 + 5)%nat -> Spec.goes_on dev sent j).
  { intros j Hj. split; [apply Hok; lia|].
    do 5 (destruct j as [|j]; [lia|]). lia. }
  change (seq 0 31) with (seq 0 5 ++ 5%nat :: seq 6 25)%list.
  rewrite map_app, (aggregate_goes_on dev sent 5 0 [] _ Hgo).
  cbn [seq map fold_left Spec.aggregate Nat.add].
  pose proof (Hok 5%nat ltac:(lia)) as H5.
  destruct (Spec.slot dev sent 5) as [l5 e5]. cbn [fst snd] in S5, H5. subst e5.
  rewrite S5. change (-1 <? 0) with true. cbv iota.
  set (l0 := fst (Spec.slot dev sent 0)) in *.
  set (l1 := fst (Spec.slot dev sent 1)) in *.
  set (l2 := fst (Spec.slot dev sent 2)) in *.
  set (l3 := fst (Spec.slot dev sent 3)) in *.
  set (l4 := fst (Spec.slot dev sent 4)) in *.
  rewrite (accept_first l0) by lia.
  replace (Spec.accept [Log_of l0] l1) with [Log_of l0]
    by (symmetry; apply (accept_repeat []); cbn [Log_of Log_Session]; lia).
  replace (Spec.accept [Log_of l0] l2) with [Log_of l0; Log_of l2]
    by (symmetry; apply (accept_other []); cbn [Log_of Log_Session]; lia).
  rewrite (accept_empty_slot _ l3 S3).
  replace (Spec.accept [Log_of l0; Log_of l2] l4)
    with [Log_of l0; Log_of l2; Log_of l4]
    by (symmetry; apply (accept_other [Log_of l0]); cbn [Log_of Log_Session]; lia).
  split; [reflexivity|].
  cbn [map Log_of Log_Session]. rewrite S0, S2, S4. reflexivity.
Qed.

Lemma History_stops_at_negative_witness :
  exists hist,
    udp_History (Sample.wallbox Sample.seven) []
    = Some (Some hist, None,
            ["report 100"; "report 101"; "report 102"; "report 103";
             "report 104"; "report 105"])
    /\ map Log_Session hist = [5; 6; 7].
Proof.
  eexists.
  apply (History_stops_at_negative (Sample.wallbox Sample.seven) []).
  - intros k Hk. do 6 (destruct k as [|k]; [reflexivity|]). lia.
  - reflexivity.
Defined.

(** C5: when the exchange for some slot fails, the slots before it
    having been answered by entries that let the loop go on (so that
    this exchange is made), [History] returns that very error and a nil
    list: nothing of what was gathered before the failure. *)
Theorem History_fails_whole (dev : Device) (sent : list string)
        (k : nat) (e : error) :
  (k < 31)%nat ->
  (forall j, (j < k)%nat -> Spec.goes_on dev sent j) ->
  snd (Spec.slot dev sent k) = Some e ->
  udp_History dev sent = Some (None, Some e, (sent ++ Spec.cmds (S k))%list).
Proof.
  intros Hk Hbefore Hfail. rewrite udp_History_aggregate.
  replace 31%nat with (k + S (30 - k))%nat by lia.
  rewrite seq_app, map_app.
  rewrite aggregate_goes_on by (intros j Hj; apply Hbefore; lia).
  cbn [seq map Spec.aggregate Nat.add].
  destruct (Spec.slot dev sent k) as [l e']. cbn [snd] in Hfail. subst e'.
  reflexivity.
Qed.

Lemma History_fails_whole_witness :
  udp_History (Sample.wallbox Sample.fading) []
  = Some (None, Some Sample.timeout, ["report 100"; "report 101"; "report 102"]).
Proof.
  apply (History_fails_whole (Sample.wallbox Sample.fading) [] 2 Sample.timeout).
  - lia.
  - intros j Hj.
    do 2 (destruct j as [|j]; [split; [reflexivity | vm_compute; discriminate]|]).
    lia.
  - reflexivity.
Defined.

(** C6: when every one of the 31 slots is answered by an entry whose
    session number is not negative, [History] asks all 31 slots and
    returns, in slot order, the entries the rule of the specification
    accepts: those with a non-zero number that differs from the number
    of the last accepted entry.  The rule looks at the last accepted
    entry only: an entry with a non-zero number other than the last
    one's is appended even when the list already holds that number. *)
Theorem History_full_scan (dev : Device) (sent : list string) :
  (forall k, (k < 31)%nat -> Spec.goes_on dev sent k) ->
  udp_History dev sent
  = Some (Some (Spec.accepted
                  (map (fun k => fst (Spec.slot dev sent k)) (seq 0 31))),
          None, (sent ++ Spec.cmds 31)%list)
  /\ (forall older last l,
        udpLog_Session l <> 0 -> udpLog_Session l <> Log_Session last ->
        Spec.accept (older ++ [last]) l = (older ++ [last] ++ [Log_of l])%list).
Proof.
  intros Hall. split.
  - rewrite udp_History_aggregate.
    rewrite <- (app_nil_r (map (Spec.slot dev sent) (seq 0 31))).
    rewrite aggregate_goes_on by (intros j Hj; apply Hall; lia).
    reflexivity.
  - intros older last l H0 Hl. apply accept_other; assumption.
Qed.

Lemma History_full_scan_witness :
  exists hist,
    udp_History (Sample.wallbox Sample.repeating) []
    = Some (Some hist, None, Spec.cmds 31)
    /\ map Log_Session hist = [5; 6; 5].
Proof.
  eexists. split.
  - apply (History_full_scan (Sample.wallbox Sample.repeating) []).
    intros k Hk.
    do 31 (destruct k as [|k]; [split; [reflexivity | vm_compute; discriminate]|]).
    lia.
  - reflexivity.
Defined.

(** C9: the list of a successful [History] call holds only entries with
    a session number above zero, no two neighbours in it carry the same
    number, and it has at most 31 entries. *)
Theorem History_result_invariant (dev : Device) (sent sent' : list string)
        (hist : list Log) :
  udp_History dev sent = Some (Some hist, None, sent') ->
  Forall (fun l => 0 < Log_Session l) hist
  /\ Spec.adjacent_distinct hist
  /\ (List.length hist <= 31)%nat.
Proof.
  intros H. rewrite udp_History_aggregate in H.
  destruct (Spec.aggregate _ _ _) as [[r e] c] eqn:E.
  injection H as -> -> _.
  apply aggregate_well_formed in E.
  - destruct E as [[Hp Ha] Hl].
    rewrite length_map, length_seq in Hl. simpl in Hl.
    repeat split; assumption.
  - split; [constructor|]. intros i d Hi. simpl in Hi. lia.
Qed.

Lemma History_result_invariant_witness :
  exists hist,
    map Log_Session hist = [5; 6; 7]
    /\ Forall (fun l => 0 < Log_Session l) hist
    /\ Spec.adjacent_distinct hist
    /\ (List.length hist <= 31)%nat.
Proof.
  eexists. split; [|
    apply (History_result_invariant (Sample.wallbox Sample.seven) []
             ["report 100"; "report 101"; "report 102"; "report 103";
              "report 104"; "report 105"]); reflexivity].
  reflexivity.
Defined.

(** ** The DIP switches *)

Lemma all_from_spec (f : Z -> bool) (n : nat) : forall a,
  Spec.all_from n a f = true ->
  forall x, a <= x < a + Z.of_nat n -> f x = true.
Proof.
  induction n as [|n IH]; intros a H x Hx.
  - simpl in Hx. lia.
  - cbn [Spec.all_from] in H. apply andb_true_iff in H. destruct H as [Hn Hrest].
    destruct (Z.eq_dec x a) as [->|Hne]; [exact Hn|].
    apply (IH (a + 1)); [exact Hrest | lia].
Qed.

(** A successful decode does not look at the value the receiver had. *)
Lemma DIPs_UnmarshalJSON_ok_any (data : JSON) (d d' y : DIPs) :
  DIPs_UnmarshalJSON data d = (y, None) -> DIPs_UnmarshalJSON data d' = (y, None).
Proof.
  unfold DIPs_UnmarshalJSON.
  destruct (json.Unmarshal_string data "") as [s [e|]]; [discriminate|].
  destruct (strconv.ParseInt _ 16 16) as [i [e|]]; [discriminate|].
  intros H. exact H.
Qed.

(** Below 2^15 the hexadecimal text of the stand-alone client decodes to
    the value it was written from. *)
Lemma DIPs_round_trip_15_bits (x : Z) (d : DIPs) :
  0 <= x < 2 ^ 15 ->
  DIPs_UnmarshalJSON (JString (DIPs_String_0x x)) d = (x, None).
Proof.
  intros Hx.
  assert (H : Spec.all_from (Z.to_nat (2 ^ 15)) 0 Spec.round_trips = true)
    by (vm_cast_no_check (eq_refl true)).
  pose proof (all_from_spec _ _ _ H x ltac:(rewrite Z2Nat.id; lia)) as Hr.
  unfold Spec.round_trips in Hr.
  destruct (DIPs_UnmarshalJSON (JString (DIPs_String_0x x)) 0) as [y [e|]] eqn:E;
    [discriminate|].
  apply Z.eqb_eq in Hr. subst y.
  exact (DIPs_UnmarshalJSON_ok_any _ _ _ _ E).
Qed.

(** From 2^15 on it does not: the text is refused. *)
Lemma DIPs_round_trip_top_bit (x : Z) :
  2 ^ 15 <= x < 2 ^ 16 -> Spec.round_trips x = false.
Proof.
  intros Hx.
  assert (H : Spec.all_from (Z.to_nat (2 ^ 15)) (2 ^ 15)
                (fun k => negb (Spec.round_trips k)) = true)
    by (vm_cast_no_check (eq_refl true)).
  pose proof (all_from_spec _ _ _ H x ltac:(rewrite Z2Nat.id; lia)) as Hr.
  apply negb_true_iff in Hr. exact Hr.
Qed.

(** With the binary text of [keba.go] only 0 and 1 come back. *)
Lemma DIPs_round_trip_keba (x : Z) :
  0 <= x < 2 ^ 16 -> Spec.round_trips_keba x = (x <? 2).
Proof.
  intros Hx.
  assert (H : Spec.all_from (Z.to_nat (2 ^ 16)) 0
                (fun k => Bool.eqb (Spec.round_trips_keba k) (k <? 2)) = true)
    by (vm_cast_no_check (eq_refl true)).
  pose proof (all_from_spec _ _ _ H x ltac:(rewrite Z2Nat.id; lia)) as Hr.
  apply Bool.eqb_prop in Hr. exact Hr.
Qed.

(** C2: the round trip does not hold on the code.  The stand-alone
    client writes 32768 as [0x8000], which [UnmarshalJSON] refuses as out
    of range, the receiver keeping its value; [keba.go] writes 2 as
    sixteen binary digits, which [UnmarshalJSON] reads as the hexadecimal
    number 16.  Over the 16-bit values, the text of the stand-alone
    client comes back exactly below 2^15, and the text of [keba.go]
    exactly for 0 and 1. *)
Theorem DIPs_round_trip_breaks :
  DIPs_String_0x 32768 = "0x8000"
  /\ DIPs_UnmarshalJSON (JString (DIPs_String_0x 32768)) 0
     = (0, Some (NumError "ParseInt" "8000" ErrRange))
  /\ DIPs_String 2 = "0000000000000010"
  /\ DIPs_UnmarshalJSON (JString (DIPs_String 2)) 0 = (16, None)
  /\ (forall x, 0 <= x < 2 ^ 16 -> Spec.round_trips x = (x <? 2 ^ 15))
  /\ (forall x, 0 <= x < 2 ^ 16 -> Spec.round_trips_keba x = (x <? 2)).
Proof.
  split; [reflexivity|]. split; [reflexivity|].
  split; [reflexivity|]. split; [reflexivity|]. split.
  - intros x Hx. destruct (x <? 2 ^ 15) eqn:E.
    + apply Z.ltb_lt in E. unfold Spec.round_trips.
      rewrite (DIPs_round_trip_15_bits x 0) by lia. apply Z.eqb_refl.
    + apply Z.ltb_ge in E. apply DIPs_round_trip_top_bit. lia.
  - exact DIPs_round_trip_keba.
Qed.

(** C7: the three spellings of 255 decode, and to the same value. *)
Theorem DIPs_decodes_255 (d : DIPs) :
  DIPs_UnmarshalJSON (JString "0xFF") d = (255, None)
  /\ DIPs_UnmarshalJSON (JString "0xff") d = (255, None)
  /\ DIPs_UnmarshalJSON (JString "0x00ff") d = (255, None).
Proof.
  repeat split; reflexivity.
Qed.

(** The digit switch of [ParseUint] on a hex digit, and off one. *)
Lemma digit_hex (c : ascii) :
  Spec.is_hex_digit c = true ->
  strconv.digit c = Some (Spec.hex_digit_value c)
  /\ 0 <= Spec.hex_digit_value c < 16
  /\ Ascii.eqb c "+" = false /\ Ascii.eqb c "-" = false.
Proof.
  destruct c as [b0 b1 b2 b3 b4 b5 b6 b7].
  destruct b0, b1, b2, b3, b4, b5, b6, b7; intros H;
    try discriminate H; vm_compute; intuition discriminate.
Qed.

Lemma digit_not_hex (c : ascii) :
  Spec.is_hex_digit c = false ->
  match strconv.digit c with Some d => 16 <=? d | None => true end = true.
Proof.
  destruct c as [b0 b1 b2 b3 b4 b5 b6 b7].
  destruct b0, b1, b2, b3, b4, b5, b6, b7; intros H;
    try discriminate H; reflexivity.
Qed.

Lemma hex_value_ge (s : string) : forall n,
  Spec.all_hex s = true -> 0 <= n -> n <= Spec.hex_value n s.
Proof.
  induction s as [|c s IH]; intros n Hs Hn; cbn [Spec.hex_value].
  - lia.
  - cbn [Spec.all_hex] in Hs. apply andb_true_iff in Hs. destruct Hs as [Hc Hs].
    destruct (digit_hex c Hc) as (_ & Hd & _).
    specialize (IH (n * 16 + Spec.hex_digit_value c) Hs ltac:(lia)). lia.
Qed.

Section ParseUint.

Variable s0 : string.
Variables cutoff maxVal : Z.
Hypothesis maxVal_small : maxVal < cutoff.
Hypothesis maxVal_fits : maxVal <= strconv.maxUint64.

(** On hex digits the loop computes their value, as long as that value
    fits. *)
Lemma ParseUint_loop_hex (s : string) : forall n,
  Spec.all_hex s = true -> 0 <= n -> Spec.hex_value n s <= maxVal ->
  strconv.ParseUint_loop s0 16 cutoff maxVal s n = (Spec.hex_value n s, None).
Proof.
  induction s as [|c s IH]; intros n Hs Hn Hv;
    cbn [strconv.ParseUint_loop Spec.hex_value] in *.
  - reflexivity.
  - cbn [Spec.all_hex] in Hs. apply andb_true_iff in Hs. destruct Hs as [Hc Hs].
    destruct (digit_hex c Hc) as (Hd & Hr & _). rewrite Hd.
    pose proof (hex_value_ge s (n * 16 + Spec.hex_digit_value c) Hs ltac:(lia)).
    replace (16 <=? Spec.hex_digit_value c) with false
      by (symmetry; apply Z.leb_gt; lia).
    replace (cutoff <=? n) with false by (symmetry; apply Z.leb_gt; lia).
    replace (strconv.maxUint64 <? n * 16 + Spec.hex_digit_value c) with false
      by (symmetry; apply Z.ltb_ge; lia).
    replace (maxVal <? n * 16 + Spec.hex_digit_value c) with false
      by (symmetry; apply Z.ltb_ge; lia).
    cbn [orb]. apply IH; [assumption | lia | assumption].
Qed.

(** The loop ends in one of three ways. *)
Lemma ParseUint_loop_cases (s : string) : forall n,
  snd (strconv.ParseUint_loop s0 16 cutoff maxVal s n) = None
  \/ strconv.ParseUint_loop s0 16 cutoff maxVal s n
     = (0, Some (NumError "ParseUint" s0 ErrSyntax))
  \/ strconv.ParseUint_loop s0 16 cutoff maxVal s n
     = (maxVal, Some (NumError "ParseUint" s0 ErrRange)).
Proof.
  induction s as [|c s IH]; intros n; cbn [strconv.ParseUint_loop].
  - left. reflexivity.
  - destruct (strconv.digit c) as [d|]; [|right; left; reflexivity].
    destruct (16 <=? d); [right; left; reflexivity|].
    destruct (cutoff <=? n); [right; right; reflexivity|].
    destruct (_ || _); [right; right; reflexivity|].
    apply IH.
Qed.

(** A character that is no hex digit makes the loop fail. *)
Lemma ParseUint_loop_not_hex (s : string) : forall n,
  Spec.all_hex s = false ->
  snd (strconv.ParseUint_loop s0 16 cutoff maxVal s n) <> None.
Proof.
  induction s as [|c s IH]; intros n Hs; cbn [strconv.ParseUint_loop].
  - discriminate Hs.
  - cbn [Spec.all_hex] in Hs.
    destruct (Spec.is_hex_digit c) eqn:Hc.
    + cbn [andb] in Hs.
      destruct (strconv.digit c) as [d|]; [|discriminate].
      destruct (16 <=? d); [discriminate|].
      destruct (cutoff <=? n); [discriminate|].
      destruct (_ || _); [discriminate|].
      apply IH. exact Hs.
    + pose proof (digit_not_hex c Hc) as Hd.
      destruct (strconv.digit c) as [d|]; [|discriminate].
      rewrite Hd. discriminate.
Qed.

End ParseUint.

Lemma hex_value_nonneg (s : string) :
  Spec.all_hex s = true -> 0 <= Spec.hex_value 0 s.
Proof.
  intros H. apply hex_value_ge; [exact H | lia].
Qed.

(** [ParseInt] with base 16 and 16 bits on one or more hex digits that
    denote a value below 2^15. *)
Lemma ParseInt_hex (s : string) :
  s <> "" -> Spec.all_hex s = true -> Spec.hex_value 0 s < 2 ^ 15 ->
  strconv.ParseInt s 16 16 = (Spec.hex_value 0 s, None).
Proof.
  intros Hne Hs Hv. destruct s as [|c r]; [congruence|].
  pose proof Hs as Hs'. cbn [Spec.all_hex] in Hs'.
  apply andb_true_iff in Hs'. destruct Hs' as [Hc _].
  destruct (digit_hex c Hc) as (_ & _ & Hplus & Hminus).
  unfold strconv.ParseInt. rewrite Hplus, Hminus.
  unfold strconv.ParseUint.
  pose proof (hex_value_nonneg _ Hs).
  change (2 ^ (16 - 1)) with 32768. change (2 ^ 15) with 32768 in Hv.
  rewrite (ParseUint_loop_hex (String c r) (strconv.maxUint64 / 16 + 1)
             (2 ^ 16 - 1) eq_refl ltac:(discriminate) (String c r) 0 Hs
             ltac:(lia) ltac:(change (2 ^ 16 - 1) with 65535; lia)).
  cbn [negb andb].
  replace (32768 <=? Spec.hex_value 0 (String c r)) with false
    by (symmetry; apply Z.leb_gt; lia).
  reflexivity.
Qed.

(** [ParseInt] with base 16 and 16 bits fails when, the sign apart,
    nothing is left or something that is no hex digit. *)
Lemma ParseInt_not_hex (s : string) :
  Spec.unsigned_part s = "" \/ Spec.all_hex (Spec.unsigned_part s) = false ->
  snd (strconv.ParseInt s 16 16) <> None.
Proof.
  intros H. destruct s as [|c r]; [discriminate|].
  unfold strconv.ParseInt. cbn [Spec.unsigned_part] in H.
  assert (Hu : forall neg u,
             u = "" \/ Spec.all_hex u = false ->
             snd (let '(un, err) := strconv.ParseUint u 16 16 in
                  match err with
                  | Some e =>
                      if strconv.is_range e then
                        let cutoff := 2 ^ (16 - 1) in
                        if negb neg && (cutoff <=? un) then
                          (cutoff - 1, Some (NumError "ParseInt" (String c r) ErrRange))
                        else if neg && (cutoff <? un) then
                          (- cutoff, Some (NumError "ParseInt" (String c r) ErrRange))
                        else ((if neg then - un else un), None)
                      else (0, Some (NumError "ParseInt" (String c r) ErrSyntax))
                  | None =>
                      let cutoff := 2 ^ (16 - 1) in
                      if negb neg && (cutoff <=? un) then
                        (cutoff - 1, Some (NumError "ParseInt" (String c r) ErrRange))
                      else if neg && (cutoff <? un) then
                        (- cutoff, Some (NumError "ParseInt" (String c r) ErrRange))
                      else ((if neg then - un else un), None)
                  end) <> None).
  { intros neg u Hbad. unfold strconv.ParseUint.
    destruct u as [|c' r']; [discriminate|].
    destruct Hbad as [Hbad|Hbad]; [discriminate Hbad|].
    pose proof (ParseUint_loop_not_hex (String c' r')
                  (strconv.maxUint64 / 16 + 1) (2 ^ 16 - 1) (String c' r') 0 Hbad)
      as Hfail.
    destruct (ParseUint_loop_cases (String c' r')
                (strconv.maxUint64 / 16 + 1) (2 ^ 16 - 1) (String c' r') 0)
      as [Hn|[Hsyn|Hrng]].
    - contradiction.
    - rewrite Hsyn. discriminate.
    - rewrite Hrng. destruct neg; discriminate. }
  destruct (Ascii.eqb c "+") eqn:Ep.
  - cbn [orb] in H. apply (Hu false r H).
  - destruct (Ascii.eqb c "-") eqn:Em.
    + cbn [orb] in H. apply (Hu true r H).
    + cbn [orb] in H. apply (Hu false (String c r) H).
Qed.

Lemma TrimPrefix_0x (s : string) : strings.TrimPrefix ("0x" ++ s) "0x" = s.
Proof.
  unfold strings.TrimPrefix, strings.HasPrefix. destruct s; reflexivity.
Qed.

Lemma form_0x_hex_inv (s : string) :
  Spec.form_0x_hex s = true ->
  s = "0x" ++ strings.drop 2 s
  /\ strings.drop 2 s <> "" /\ Spec.all_hex (strings.drop 2 s) = true.
Proof.
  destruct s as [|a [|b [|c r]]]; try discriminate.
  - intros H. cbn [Spec.form_0x_hex] in H.
    destruct a as [[] [] [] [] [] [] [] []]; discriminate H.
  - intros H. cbn [Spec.form_0x_hex] in H.
    destruct a as [[] [] [] [] [] [] [] []]; try discriminate H;
      destruct b as [[] [] [] [] [] [] [] []]; discriminate H.
  - intros H.
    destruct a as [[] [] [] [] [] [] [] []]; try discriminate H;
      destruct b as [[] [] [] [] [] [] [] []]; try discriminate H.
    cbn [strings.drop]. repeat split; [discriminate | exact H].
Qed.

(** A refused value leaves the receiver as it was. *)
Lemma DIPs_UnmarshalJSON_error_keeps (data : JSON) (d d' : DIPs) (e : error) :
  DIPs_UnmarshalJSON data d = (d', Some e) -> d' = d.
Proof.
  unfold DIPs_UnmarshalJSON.
  destruct (json.Unmarshal_string data "") as [t [e1|]];
    [intros H; injection H as <- _; reflexivity|].
  destruct (strconv.ParseInt _ 16 16) as [i [e2|]]; intros H;
    [injection H as <- _; reflexivity | discriminate].
Qed.

(** C4, as the code has it: a string [0x<hex>] with one or more hex
    digits in either case, whose value is below 2^15, decodes to that
    value; the prefix is optional, a string without it decoding like the
    same string with it; a string that, prefix and sign apart, is empty
    or holds a character that is no hex digit is refused; and a refused
    value of any kind leaves the receiver as it was. *)
Theorem DIPs_UnmarshalJSON_forms (s : string) (d : DIPs) :
  (Spec.form_0x_hex s = true ->
   Spec.hex_value 0 (strings.drop 2 s) < 2 ^ 15 ->
   DIPs_UnmarshalJSON (JString s) d = (Spec.hex_value 0 (strings.drop 2 s), None))
  /\ (strings.HasPrefix s "0x" = false ->
      DIPs_UnmarshalJSON (JString ("0x" ++ s)) d = DIPs_UnmarshalJSON (JString s) d)
  /\ (Spec.unsigned_part (strings.TrimPrefix s "0x") = ""
      \/ Spec.all_hex (Spec.unsigned_part (strings.TrimPrefix s "0x")) = false ->
      exists e, DIPs_UnmarshalJSON (JString s) d = (d, Some e))
  /\ (forall data d' e, DIPs_UnmarshalJSON data d = (d', Some e) -> d' = d).
Proof.
  repeat split.
  - intros Hform Hv.
    destruct (form_0x_hex_inv s Hform) as (Hs & Hne & Hhex).
    unfold DIPs_UnmarshalJSON. cbn [json.Unmarshal_string].
    rewrite Hs at 1. rewrite TrimPrefix_0x.
    rewrite (ParseInt_hex _ Hne Hhex Hv).
    unfold uint16. rewrite Z.mod_small; [reflexivity|].
    pose proof (hex_value_nonneg _ Hhex). change (2 ^ 15) with 32768 in Hv.
    change (2 ^ 16) with 65536. lia.
  - intros Hno. unfold DIPs_UnmarshalJSON. cbn [json.Unmarshal_string].
    rewrite TrimPrefix_0x. unfold strings.TrimPrefix. rewrite Hno. reflexivity.
  - intros Hbad. unfold DIPs_UnmarshalJSON. cbn [json.Unmarshal_string].
    pose proof (ParseInt_not_hex _ Hbad) as Hfail.
    destruct (strconv.ParseInt _ 16 16) as [i [e|]]; [|contradiction].
    exists e. reflexivity.
  - intros data d' e. apply DIPs_UnmarshalJSON_error_keeps.
Qed.

Lemma DIPs_UnmarshalJSON_forms_witness :
  DIPs_UnmarshalJSON (JString "0x7FfF") 9 = (32767, None)
  /\ DIPs_UnmarshalJSON (JString "0xbeef") 9 = DIPs_UnmarshalJSON (JString "beef") 9
  /\ (exists e, DIPs_UnmarshalJSON (JString "0x12g4") 9 = (9, Some e))
  /\ (exists e, DIPs_UnmarshalJSON (JString "0x") 9 = (9, Some e)).
Proof.
  split; [| split; [| split]].
  - apply (proj1 (DIPs_UnmarshalJSON_forms "0x7FfF" 9)); reflexivity.
  - apply (proj1 (proj2 (DIPs_UnmarshalJSON_forms "beef" 9))); reflexivity.
  - apply (proj1 (proj2 (proj2 (DIPs_UnmarshalJSON_forms "0x12g4" 9)))).
    right. reflexivity.
  - apply (proj1 (proj2 (proj2 (DIPs_UnmarshalJSON_forms "0x" 9)))).
    left. reflexivity.
Defined.

(** C4 as stated fails: [ff] and [+7f] are not of the form [0x<hex>],
    and they decode; the receiver, 9 before, is overwritten. *)
Lemma DIPs_accepts_other_forms :
  Spec.form_0x_hex "ff" = false
  /\ DIPs_UnmarshalJSON (JString "ff") 9 = (255, None)
  /\ Spec.form_0x_hex "+7f" = false
  /\ DIPs_UnmarshalJSON (JString "+7f") 9 = (127, None).
Proof.
  repeat split; reflexivity.
Qed.

(** ** The time stamps of a history slot *)

Lemma equalFold_eq (a key : string) :
  json.equalFold a key = true -> json.fold_name key = json.fold_name a.
Proof.
  unfold json.equalFold. intros H. apply String.eqb_eq in H. congruence.
Qed.

Lemma started_not_ended (key : string) :
  Spec.is_started key = true -> Spec.is_ended key = false.
Proof.
  intros H. apply equalFold_eq in H. unfold Spec.is_ended, json.equalFold.
  rewrite H. reflexivity.
Qed.

(** The field of [times] a key names. *)
Lemma find_times_field (key : string) :
  json.find_field times_fields key
  = if Spec.is_started key then Some times_started
    else if Spec.is_ended key then Some times_ended else None.
Proof.
  unfold json.find_field, times_fields.
  cbn [find json.name times_started times_ended].
  fold (Spec.is_started key). fold (Spec.is_ended key).
  destruct ("started[s]" =? key)%string eqn:E1.
  - apply String.eqb_eq in E1. subst key. reflexivity.
  - destruct ("ended[s]" =? key)%string eqn:E2.
    + apply String.eqb_eq in E2. subst key. reflexivity.
    + reflexivity.
Qed.

(** [saveError] keeps the first error, up to the end of the object. *)
Lemma object_keeps_saved (T : Type) (fields : list (json.field T))
      (members : list (string * JSON)) : forall t e,
  snd (fst (json.object fields members t (Some e))) = Some e.
Proof.
  induction members as [|[k v] rest IH]; intros t e; cbn [json.object].
  - reflexivity.
  - destruct (json.find_field fields k) as [f|]; [|apply IH].
    destruct (json.store f v t); [apply IH | apply IH | reflexivity].
Qed.

(** The second pass over members that are all numeric under the two
    keys stores, for each key, the text of its last number or string. *)
Lemma times_object_numeric (members : list (string * JSON)) : forall t saved,
  Spec.times_numeric members = true ->
  json.object times_fields members t saved
  = (mkTimes (Spec.time_text Spec.is_started members (times_Start t))
             (Spec.time_text Spec.is_ended members (times_End t)),
     saved, None).
Proof.
  induction members as [|[k v] rest IH]; intros t saved H.
  - destruct t. reflexivity.
  - unfold Spec.times_numeric in H. cbn [forallb fst snd] in H.
    apply andb_true_iff in H. destruct H as [Hkv Hrest].
    cbn [json.object Spec.time_text]. rewrite find_times_field.
    destruct (Spec.is_started k) eqn:Es.
    + rewrite (started_not_ended k Es). cbn [orb negb] in Hkv.
      cbn [times_started json.store].
      destruct v as [| b | lit | str | elems | mems]; try discriminate Hkv;
        cbn [json.store_Number Spec.numeric] in *.
      * apply IH. exact Hrest.
      * rewrite IH by exact Hrest. reflexivity.
      * rewrite Hkv. rewrite IH by exact Hrest. reflexivity.
    + destruct (Spec.is_ended k) eqn:Ee.
      * cbn [orb negb] in Hkv. cbn [times_ended json.store].
        destruct v as [| b | lit | str | elems | mems]; try discriminate Hkv;
          cbn [json.store_Number Spec.numeric] in *.
        -- apply IH. exact Hrest.
        -- rewrite IH by exact Hrest. reflexivity.
        -- rewrite Hkv. rewrite IH by exact Hrest. reflexivity.
      * apply IH. exact Hrest.
Qed.

(** A member under one of the two keys that is not numeric makes the
    second pass fail. *)
Lemma times_object_refuses (members : list (string * JSON)) : forall t,
  Spec.times_numeric members = false ->
  snd (json.Unmarshal_struct times_fields (JObject members) t) <> None.
Proof.
  assert (G : forall t saved,
             Spec.times_numeric members = false ->
             let r := json.object times_fields members t saved in
             snd r <> None \/ snd (fst r) <> None).
  { induction members as [|[k v] rest IH]; intros t saved H.
    - discriminate H.
    - unfold Spec.times_numeric in H. cbn [forallb fst snd] in H.
      cbn [json.object]. rewrite find_times_field.
      assert (Hstore : forall set : string -> times -> times,
                 negb true || Spec.numeric v && Spec.times_numeric rest = false ->
                 let r := match json.store_Number set v t with
                          | json.Stored t' => json.object times_fields rest t' saved
                          | json.Saved t' e =>
                              json.object times_fields rest t'
                                (json.saveError saved e)
                          | json.Aborted t' e => (t', saved, Some e)
                          end in
                 snd r <> None \/ snd (fst r) <> None).
      { intros set Hv. cbn [negb orb] in Hv.
        destruct v as [| b | lit | str | elems | mems];
          cbn [json.store_Number Spec.numeric andb] in *;
          try (apply IH; exact Hv);
          try (right; destruct saved as [e0|]; cbn [json.saveError];
               rewrite object_keeps_saved; discriminate).
        destruct (json.isValidNumber str); cbn [andb] in Hv.
        - apply IH. exact Hv.
        - left. discriminate. }
      destruct (Spec.is_started k) eqn:Es.
      + apply Hstore. exact H.
      + destruct (Spec.is_ended k) eqn:Ee.
        * apply Hstore. exact H.
        * apply IH. exact H. }
  intros t H. cbn [json.Unmarshal_struct].
  specialize (G t None H). cbv zeta in G.
  destruct (json.object times_fields members t None) as [[t' saved] [e|]];
    cbn [fst snd] in *; [discriminate|].
  destruct G as [G|G]; [congruence | exact G].
Qed.

Lemma udpLog_set_Start_coerce (text : string) (l : udpLog) :
  match json.Number_Int64 text with
  | (i, None) => udpLog_set_Start i l
  | (_, Some _) => l
  end = udpLog_set_Start (Spec.coerce text (udpLog_Start l)) l.
Proof.
  unfold Spec.coerce, json.Number_Int64.
  destruct (strconv.ParseInt text 10 64) as [i [e|]]; [|reflexivity].
  destruct l; reflexivity.
Qed.

Lemma udpLog_set_End_coerce (text : string) (l : udpLog) :
  match json.Number_Int64 text with
  | (i, None) => udpLog_set_End i l
  | (_, Some _) => l
  end = udpLog_set_End (Spec.coerce text (udpLog_End l)) l.
Proof.
  unfold Spec.coerce, json.Number_Int64.
  destruct (strconv.ParseInt text 10 64) as [i [e|]]; [|reflexivity].
  destruct l; reflexivity.
Qed.




(** ** The three reports *)

(** Decoding goes through the members in order, and stops for good at
    the first member whose decoder returns an error. *)
Lemma object_app (T : Type) (fields : list (json.field T))
      (pre rest : list (string * JSON)) : forall t saved,
  json.object fields (pre ++ rest) t saved
  = match json.object fields pre t saved with
    | (t', saved', None) => json.object fields rest t' saved'
    | (t', saved', Some e) => (t', saved', Some e)
    end.
Proof.
  induction pre as [|[k v] pre IH]; intros t saved; cbn [app json.object].
  - reflexivity.
  - destruct (json.find_field fields k) as [f|]; [|apply IH].
    destruct (json.store f v t); [apply IH | apply IH | reflexivity].
Qed.

(** The record an object decodes to does not depend on the error saved
    so far, nor does the place where the decoding stops. *)
Lemma object_saved_irrelevant (T : Type) (fields : list (json.field T))
      (members : list (string * JSON)) : forall t s1 s2,
  fst (fst (json.object fields members t s1))
  = fst (fst (json.object fields members t s2))
  /\ snd (json.object fields members t s1) = snd (json.object fields members t s2).
Proof.
  induction members as [|[k v] rest IH]; intros t s1 s2; cbn [json.object].
  - split; reflexivity.
  - destruct (json.find_field fields k) as [f|]; [|apply IH].
    destruct (json.store f v t); [apply IH | apply IH | split; reflexivity].
Qed.

Lemma find_field_In (T : Type) (fields : list (json.field T)) (k : string)
      (f : json.field T) :
  json.find_field fields k = Some f -> In f fields.
Proof.
  unfold json.find_field. intros H.
  destruct (find _ fields) as [f0|] eqn:E1.
  - injection H as <-. apply (find_some _ _ E1).
  - apply (find_some _ _ H).
Qed.

(** A member whose value its field refuses with a saved error is
    skipped: the error is reported, and the record is the one the other
    members decode to, those after it included. *)
Lemma object_skips_saved (T : Type) (fields : list (json.field T))
      (pre post : list (string * JSON)) (k : string) (v : JSON)
      (f : json.field T) (e : error) (t : T) :
  json.find_field fields k = Some f ->
  (forall t', json.store f v t' = json.Saved t' e) ->
  fst (json.Unmarshal_struct fields (JObject (pre ++ (k, v) :: post)) t)
  = fst (json.Unmarshal_struct fields (JObject (pre ++ post)) t)
  /\ snd (json.Unmarshal_struct fields (JObject (pre ++ (k, v) :: post)) t)
     <> None.
Proof.
  intros Hk Hs. cbn [json.Unmarshal_struct].
  rewrite !object_app.
  destruct (json.object fields pre t None) as [[t1 saved1] [e1|]];
    [split; [reflexivity | discriminate]|].
  cbn [json.object]. rewrite Hk, Hs.
  pose proof (object_saved_irrelevant T fields post t1
                (json.saveError saved1 e) saved1) as [Hrec Hab].
  pose proof (object_keeps_saved T fields post t1) as Hkeep.
  destruct (json.object fields post t1 (json.saveError saved1 e))
    as [[t2 saved2] ab2] eqn:E2.
  destruct (json.object fields post t1 saved1) as [[t3 saved3] ab3] eqn:E3.
  cbn [fst snd] in Hrec, Hab. subst t3 ab3.
  destruct ab2 as [e2|]; [split; [reflexivity | discriminate]|].
  split; [reflexivity|]. cbn [snd].
  destruct saved1 as [e0|]; cbn [json.saveError] in E2.
  - specialize (Hkeep e0). rewrite E2 in Hkeep. cbn [fst snd] in Hkeep.
    congruence.
  - specialize (Hkeep e). rewrite E2 in Hkeep. cbn [fst snd] in Hkeep.
    congruence.
Qed.

Lemma store_int_refused (T : Type) (set : Z -> T -> T) (v : JSON) :
  Spec.refused_as_int v = true ->
  exists e, forall t, json.store_int set v t = json.Saved t e.
Proof.
  intros H. destruct v as [| b | lit | str | elems | mems];
    cbn [Spec.refused_as_int json.store_int] in *;
    try discriminate H; try (eexists; intros t; reflexivity).
  destruct (strconv.ParseInt lit 10 64) as [n [e|]]; [|discriminate H].
  eexists. intros t. reflexivity.
Qed.

Lemma Config_fields_int (f : json.field Config) :
  In f Config_fields -> exists set, json.store f = json.store_int set.
Proof.
  cbn [Config_fields In]. intros H.
  repeat (destruct H as [<-|H]; [eexists; reflexivity|]). destruct H.
Qed.

Lemma Session_fields_int (f : json.field Session) :
  In f Session_fields -> exists set, json.store f = json.store_int set.
Proof.
  cbn [Session_fields In]. intros H.
  repeat (destruct H as [<-|H]; [eexists; reflexivity|]). destruct H.
Qed.

(** A reply to [Config] or [Session] with a member that its field
    refuses: the call returns the record the other members decode to,
    and an error. *)
Lemma msg_skips_refused (T : Type) (fields : list (json.field T)) (zero : T)
      (dev : Device) (cmd : string) (sent : list string)
      (pre post : list (string * JSON)) (k : string) (v : JSON) :
  (forall f, In f fields -> exists set, json.store f = json.store_int set) ->
  dev sent cmd = Payload (JObject (pre ++ (k, v) :: post)) ->
  json.find_field fields k <> None ->
  Spec.refused_as_int v = true ->
  exists e,
    udp_msg dev cmd (json.Unmarshal_struct fields) zero sent
    = (fst (json.Unmarshal_struct fields (JObject (pre ++ post)) zero),
       Some e, (sent ++ [cmd])%list).
Proof.
  intros Hint Hreply Hk Hv. unfold udp_msg. rewrite Hreply.
  cbn [Decoder_Decode].
  destruct (json.find_field fields k) as [f|] eqn:Ef; [|congruence].
  destruct (Hint f (find_field_In _ _ _ _ Ef)) as [set Hset].
  destruct (store_int_refused T set v Hv) as [e0 He0].
  destruct (object_skips_saved T fields pre post k v f e0 zero Ef
              ltac:(intros t'; rewrite Hset; apply He0)) as [Hrec Herr].
  destruct (json.Unmarshal_struct fields (JObject (pre ++ (k, v) :: post)) zero)
    as [t [e|]]; cbn [fst snd] in Hrec, Herr; [|congruence].
  subst t. exists e. reflexivity.
Qed.




(** ** The mutex of [udp.msg] *)

(** A step of a goroutine is the taking of the free mutex, the release
    of the mutex it holds, or a step that changes neither the mutex nor
    whether the goroutine holds it. *)
Lemma thread_step_cases (p p' : Mutex.pc) (m m' : bool) :
  Mutex.thread_step p m p' m' ->
  (Mutex.holds p' = Mutex.holds p /\ m' = m)
  \/ (Mutex.holds p = false /\ m = false /\ Mutex.holds p' = true /\ m' = true)
  \/ (Mutex.holds p = true /\ Mutex.holds p' = false /\ m' = false).
Proof.
  intros H. destruct H;
    first [ left; split; reflexivity
          | right; left; repeat split; reflexivity
          | right; right; repeat split; reflexivity ].
Qed.

(** What every reachable state of one client satisfies: at most one
    goroutine holds the mutex, and the mutex is locked while one does. *)
Lemma mutex_invariant (s : Mutex.state) :
  Mutex.reachable s ->
  (forall g h, Mutex.holds (Mutex.at_ s g) = true ->
               Mutex.holds (Mutex.at_ s h) = true -> g = h)
  /\ (forall g, Mutex.holds (Mutex.at_ s g) = true -> Mutex.locked s = true).
Proof.
  induction 1 as [s Hfree Hidle | s s' Hreach [Hone Hheld] [g [Hstep Hrest]]].
  - split; intros g; rewrite (Hidle g); intros; discriminate.
  - destruct (thread_step_cases _ _ _ _ Hstep)
      as [[Hsame Hm] | [(Hp & Hfree & Hp' & Hm) | (Hp & Hp' & Hm)]].
    + (* neither the mutex nor its holder changes *)
      assert (Heq : forall a, Mutex.holds (Mutex.at_ s' a)
                              = Mutex.holds (Mutex.at_ s a)).
      { intros a. destruct (Nat.eq_dec a g) as [->|Na];
          [exact Hsame | rewrite (Hrest a Na); reflexivity]. }
      split.
      * intros a b Ha Hb. rewrite Heq in Ha, Hb. apply Hone; assumption.
      * intros a Ha. rewrite Heq in Ha. rewrite Hm. apply (Hheld a Ha).
    + (* Lock: the mutex was free, so nobody held it *)
      assert (Hnone : forall a, a <> g -> Mutex.holds (Mutex.at_ s' a) = false).
      { intros a Na. rewrite (Hrest a Na).
        destruct (Mutex.holds (Mutex.at_ s a)) eqn:Ea; [|reflexivity].
        rewrite (Hheld a Ea) in Hfree. discriminate. }
      split.
      * intros a b Ha Hb.
        destruct (Nat.eq_dec a g) as [->|Na];
          [|rewrite (Hnone a Na) in Ha; discriminate].
        destruct (Nat.eq_dec b g) as [->|Nb];
          [reflexivity | rewrite (Hnone b Nb) in Hb; discriminate].
      * intros a Ha. exact Hm.
    + (* Unlock: the one holder leaves *)
      assert (Hnone : forall a, Mutex.holds (Mutex.at_ s' a) = false).
      { intros a. destruct (Nat.eq_dec a g) as [->|Na]; [exact Hp'|].
        rewrite (Hrest a Na).
        destruct (Mutex.holds (Mutex.at_ s a)) eqn:Ea; [|reflexivity].
        exfalso. apply Na. apply Hone; assumption. }
      split; intros a; rewrite (Hnone a); intros; discriminate.
Qed.

Lemma in_flight_holds (p : Mutex.pc) :
  Mutex.in_flight p = true -> Mutex.holds p = true.
Proof.
  destruct p; intros H; try discriminate H; reflexivity.
Qed.

(** C8: in every state one client can reach, whatever the number of
    goroutines calling [msg] and however they interleave, two goroutines
    with an exchange in flight (from the dial to the close of the
    socket) are one and the same, and the mutex is locked as long as an
    exchange is in flight. *)
Theorem exchanges_serialized (s : Mutex.state) :
  Mutex.reachable s ->
  (forall g h, Mutex.in_flight (Mutex.at_ s g) = true ->
               Mutex.in_flight (Mutex.at_ s h) = true -> g = h)
  /\ (forall g, Mutex.in_flight (Mutex.at_ s g) = true -> Mutex.locked s = true).
Proof.
  intros Hreach. destruct (mutex_invariant s Hreach) as [Hone Hheld].
  split.
  - intros g h Hg Hh. apply Hone; apply in_flight_holds; assumption.
  - intros g Hg. apply (Hheld g). apply in_flight_holds. exact Hg.
Qed.

Lemma of_list_step (m m' : bool) (places places' : list Mutex.pc) (g : nat) :
  Mutex.thread_step (nth g places Mutex.Idle) m (nth g places' Mutex.Idle) m' ->
  (forall h, h <> g -> nth h places' Mutex.Idle = nth h places Mutex.Idle) ->
  Mutex.step (Mutex.of_list m places) (Mutex.of_list m' places').
Proof.
  intros Hstep Hrest. exists g. split; [exact Hstep | exact Hrest].
Defined.

Lemma busy_reachable : Mutex.reachable Mutex.busy.
Proof.
  assert (R0 : Mutex.reachable (Mutex.of_list false [])).
  { apply Mutex.reach_init; [reflexivity | intros [|g]; reflexivity]. }
  assert (R1 : Mutex.reachable (Mutex.of_list false [Mutex.AtLock])).
  { apply (Mutex.reach_step _ _ R0). apply (of_list_step _ _ _ _ 0%nat).
    - apply Mutex.step_call.
    - intros [|[|h]] Hh; [congruence | reflexivity | reflexivity]. }
  assert (R2 : Mutex.reachable (Mutex.of_list true [Mutex.Dialing])).
  { apply (Mutex.reach_step _ _ R1). apply (of_list_step _ _ _ _ 0%nat).
    - apply Mutex.step_lock.
    - intros [|[|h]] Hh; [congruence | reflexivity | reflexivity]. }
  assert (R3 : Mutex.reachable (Mutex.of_list true [Mutex.Dialing; Mutex.AtLock])).
  { apply (Mutex.reach_step _ _ R2). apply (of_list_step _ _ _ _ 1%nat).
    - apply Mutex.step_call.
    - intros [|[|[|h]]] Hh; [reflexivity | congruence | reflexivity | reflexivity]. }
  assert (R4 : Mutex.reachable (Mutex.of_list true [Mutex.Writing; Mutex.AtLock])).
  { apply (Mutex.reach_step _ _ R3). apply (of_list_step _ _ _ _ 0%nat).
    - apply Mutex.step_dial_ok.
    - intros [|[|[|h]]] Hh; [congruence | reflexivity | reflexivity | reflexivity]. }
  apply (Mutex.reach_step _ _ R4). apply (of_list_step _ _ _ _ 0%nat).
  - apply Mutex.step_write_ok.
  - intros [|[|[|h]]] Hh; [congruence | reflexivity | reflexivity | reflexivity].
Defined.

Lemma exchanges_serialized_witness :
  Mutex.reachable Mutex.busy /\ Mutex.locked Mutex.busy = true.
Proof.
  split.
  - exact busy_reachable.
  - exact (proj2 (exchanges_serialized Mutex.busy busy_reachable) 0%nat eq_refl).
Defined.

(** ** More on the DIP switches *)

Lemma land_pow2 (d k : Z) :
  0 <= k -> Z.land d (2 ^ k) = if Z.testbit d k then 2 ^ k else 0.
Proof.
  intros Hk. apply Z.bits_inj'. intros m Hm.
  rewrite Z.land_spec, Z.pow2_bits_eqb by exact Hk.
  destruct (Z.eqb_spec k m) as [->|Hne].
  - destruct (Z.testbit d m).
    + rewrite Z.pow2_bits_true by exact Hm. reflexivity.
    + rewrite Z.bits_0. reflexivity.
  - rewrite andb_false_r. destruct (Z.testbit d k).
    + rewrite Z.pow2_bits_false by congruence. reflexivity.
    + rewrite Z.bits_0. reflexivity.
Qed.

(** X1: [Has] tells whether the switches and the mask share a bit.  For
    a mask of one bit it is that bit of the switches, [DIP_UDP] being
    bit 13 and [DIP_Modbus] bit 14; for a mask joined from two it holds
    as soon as it holds for one of them, and for the empty mask it never
    holds. *)
Theorem DIPs_Has_any_bit (d : DIPs) :
  (forall k, 0 <= k -> DIPs_Has d (2 ^ k) = Z.testbit d k)
  /\ (forall i j, DIPs_Has d (Z.lor i j) = DIPs_Has d i || DIPs_Has d j)
  /\ DIPs_Has d 0 = false
  /\ DIPs_Has d DIP_UDP = Z.testbit d 13
  /\ DIPs_Has d DIP_Modbus = Z.testbit d 14.
Proof.
  assert (Hbit : forall k, 0 <= k -> DIPs_Has d (2 ^ k) = Z.testbit d k).
  { intros k Hk. unfold DIPs_Has. rewrite (land_pow2 d k Hk).
    destruct (Z.testbit d k); [|reflexivity].
    apply negb_true_iff, Z.eqb_neq.
    pose proof (Z.pow_pos_nonneg 2 k ltac:(lia) Hk). lia. }
  split; [exact Hbit|]. split; [|split; [|split]].
  - intros i j. unfold DIPs_Has. rewrite Z.land_lor_distr_r.
    destruct (Z.eqb_spec (Z.land d i) 0) as [Ei|Ei],
             (Z.eqb_spec (Z.land d j) 0) as [Ej|Ej]; cbn [negb orb];
      [rewrite Ei, Ej; reflexivity | | | ];
      apply negb_true_iff, Z.eqb_neq; intros H;
      apply Z.lor_eq_0_iff in H; tauto.
  - unfold DIPs_Has. rewrite Z.land_0_r. reflexivity.
  - change DIP_UDP with (2 ^ 13). apply Hbit. lia.
  - change DIP_Modbus with (2 ^ 14). apply Hbit. lia.
Qed.

(** [ParseInt] with base 16 and 16 bits on a minus sign and hex digits
    that denote at most 2^15. *)
Lemma ParseInt_neg_hex (s : string) :
  s <> "" -> Spec.all_hex s = true -> Spec.hex_value 0 s <= 2 ^ 15 ->
  strconv.ParseInt (String "-" s) 16 16 = (- Spec.hex_value 0 s, None).
Proof.
  intros Hne Hs Hv. unfold strconv.ParseInt.
  change (Ascii.eqb "-" "+") with false. change (Ascii.eqb "-" "-") with true.
  cbv iota. unfold strconv.ParseUint. destruct s as [|c r]; [congruence|].
  pose proof (hex_value_nonneg _ Hs).
  change (2 ^ (16 - 1)) with 32768. change (2 ^ 15) with 32768 in Hv.
  rewrite (ParseUint_loop_hex (String c r) (strconv.maxUint64 / 16 + 1)
             (2 ^ 16 - 1) eq_refl ltac:(discriminate) (String c r) 0 Hs
             ltac:(lia) ltac:(change (2 ^ 16 - 1) with 65535; lia)).
  cbn [negb andb].
  replace (32768 <? Spec.hex_value 0 (String c r)) with false
    by (symmetry; apply Z.ltb_ge; lia).
  reflexivity.
Qed.

(** X2: a minus sign in front of hex digits is taken, with or without
    the prefix before it: when the digits denote [h], from 1 to 2^15,
    the switches become 2^16 - h.  The values from 2^15 on, which no
    unsigned text reaches, are reached this way. *)
Theorem DIPs_decodes_negative (ds : string) (d : DIPs) :
  ds <> "" -> Spec.all_hex ds = true -> 1 <= Spec.hex_value 0 ds <= 2 ^ 15 ->
  DIPs_UnmarshalJSON (JString ("-" ++ ds)) d = (2 ^ 16 - Spec.hex_value 0 ds, None)
  /\ DIPs_UnmarshalJSON (JString ("0x-" ++ ds)) d
     = (2 ^ 16 - Spec.hex_value 0 ds, None)
  /\ 2 ^ 15 <= 2 ^ 16 - Spec.hex_value 0 ds < 2 ^ 16.
Proof.
  intros Hne Hs Hv.
  assert (Hu : uint16 (- Spec.hex_value 0 ds) = 2 ^ 16 - Spec.hex_value 0 ds).
  { unfold uint16. change (2 ^ 15) with 32768 in Hv. change (2 ^ 16) with 65536.
    symmetry. apply (Z.mod_unique _ _ (-1)); lia. }
  split; [|split].
  - unfold DIPs_UnmarshalJSON. cbn [json.Unmarshal_string].
    change (strings.TrimPrefix ("-" ++ ds) "0x") with (String "-" ds).
    rewrite (ParseInt_neg_hex ds Hne Hs ltac:(lia)). rewrite Hu. reflexivity.
  - unfold DIPs_UnmarshalJSON. cbn [json.Unmarshal_string].
    change ("0x-" ++ ds) with ("0x" ++ String "-" ds). rewrite TrimPrefix_0x.
    rewrite (ParseInt_neg_hex ds Hne Hs ltac:(lia)). rewrite Hu. reflexivity.
  - change (2 ^ 15) with 32768 in *. change (2 ^ 16) with 65536. lia.
Qed.

Lemma DIPs_decodes_negative_witness :
  DIPs_UnmarshalJSON (JString "-8000") 0 = (32768, None)
  /\ DIPs_UnmarshalJSON (JString "0x-1") 0 = (65535, None).
Proof.
  split.
  - exact (proj1 (DIPs_decodes_negative "8000" 0 ltac:(discriminate) eq_refl
                    ltac:(vm_compute; split; discriminate))).
  - exact (proj1 (proj2 (DIPs_decodes_negative "1" 0 ltac:(discriminate) eq_refl
                    ltac:(vm_compute; split; discriminate)))).
Defined.

Lemma uint16_range (x : Z) : 0 <= uint16 x < 2 ^ 16.
Proof.
  unfold uint16. apply Z.mod_pos_bound. reflexivity.
Qed.

Lemma uint16_idem (x : Z) : uint16 (uint16 x) = uint16 x.
Proof.
  unfold uint16. apply Z.mod_mod. discriminate.
Qed.

(** X3: whatever the value, the text the stand-alone client writes has
    the form [0x<hex>]: the prefix, then lower-case hex digits without a
    zero in front, which denote the value as 16 bits. *)
Theorem DIPs_String_0x_form (d : DIPs) :
  Spec.form_0x_hex (DIPs_String_0x d) = true
  /\ DipSpec.all_lower_hex (strings.drop 2 (DIPs_String_0x d)) = true
  /\ Spec.hex_value 0 (strings.drop 2 (DIPs_String_0x d)) = uint16 d
  /\ (forall r, strings.drop 2 (DIPs_String_0x d) = String "0" r -> r = "").
Proof.
  assert (H : Spec.all_from (Z.to_nat (2 ^ 16)) 0 DipSpec.hex_text_ok = true)
    by (vm_cast_no_check (eq_refl true)).
  pose proof (all_from_spec _ _ _ H (uint16 d)
                ltac:(rewrite Z2Nat.id by discriminate; apply uint16_range)) as Hr.
  unfold DipSpec.hex_text_ok in Hr. cbv zeta in Hr.
  assert (E : DIPs_String_0x (uint16 d) = DIPs_String_0x d)
    by (unfold DIPs_String_0x; rewrite uint16_idem; reflexivity).
  rewrite E in Hr.
  apply andb_true_iff in Hr. destruct Hr as [Hr Hz].
  apply andb_true_iff in Hr. destruct Hr as [Hr Hv].
  apply andb_true_iff in Hr. destruct Hr as [Hf Hl].
  apply Z.eqb_eq in Hv.
  repeat split; try assumption.
  intros r Er. rewrite Er in Hz. destruct r; [reflexivity | discriminate Hz].
Qed.

(** X4: for a 16-bit value the text [keba.go] writes is sixteen
    characters long, all of them binary digits, and they denote the
    value. *)
Theorem DIPs_String_binary (d : DIPs) :
  0 <= d < 2 ^ 16 ->
  String.length (DIPs_String d) = 16%nat
  /\ DipSpec.bin_value 0 (DIPs_String d) = Some d.
Proof.
  intros Hd.
  assert (H : Spec.all_from (Z.to_nat (2 ^ 16)) 0 DipSpec.bin_text_ok = true)
    by (vm_cast_no_check (eq_refl true)).
  pose proof (all_from_spec _ _ _ H d
                ltac:(rewrite Z2Nat.id by discriminate; exact Hd)) as Hr.
  unfold DipSpec.bin_text_ok in Hr. cbv zeta in Hr.
  apply andb_true_iff in Hr. destruct Hr as [Hl Hv].
  apply Nat.eqb_eq in Hl. split; [exact Hl|].
  revert Hv. destruct (DipSpec.bin_value 0 (DIPs_String d)) as [y|]; intros Hv;
    [apply Z.eqb_eq in Hv; f_equal; exact Hv | discriminate Hv].
Qed.

Lemma DIPs_String_binary_witness :
  String.length (DIPs_String 8192) = 16%nat
  /\ DipSpec.bin_value 0 (DIPs_String 8192) = Some 8192.
Proof.
  apply (DIPs_String_binary 8192). vm_compute. split; [discriminate | reflexivity].
Defined.

(** ** More on the history aggregator *)

Lemma aggregate_count (outs : list (udpLog * option error)) :
  forall hist c r e c',
  Spec.aggregate outs hist c = (r, e, c') ->
  (c <= c' <= c + List.length outs)%nat /\ (outs <> [] -> (c < c')%nat).
Proof.
  induction outs as [|[l [e0|]] outs IH]; intros hist c r e c' H;
    cbn [Spec.aggregate] in H.
  - injection H as _ _ <-. split; [simpl; lia | congruence].
  - injection H as _ _ <-. split; [simpl; lia | intros _; lia].
  - destruct (udpLog_Session l <? 0).
    + injection H as _ _ <-. split; [simpl; lia | intros _; lia].
    + destruct (IH _ _ _ _ _ H) as [Hb _]. split; [simpl; lia | intros _; lia].
Qed.

Lemma aggregate_list_or_error (outs : list (udpLog * option error)) :
  forall hist c r e c',
  Spec.aggregate outs hist c = (r, e, c') ->
  (exists h, r = Some h /\ e = None) \/ (exists x, r = None /\ e = Some x).
Proof.
  induction outs as [|[l [e0|]] outs IH]; intros hist c r e c' H;
    cbn [Spec.aggregate] in H.
  - injection H as <- <- _. left. eexists. split; reflexivity.
  - injection H as <- <- _. right. eexists. split; reflexivity.
  - destruct (udpLog_Session l <? 0).
    + injection H as <- <- _. left. eexists. split; reflexivity.
    + apply (IH _ _ _ _ _ H).
Qed.

(** X5: a call of [History] makes at least one exchange and at most 31,
    for the slots from 100 on, one after the other and each once. *)
Theorem History_exchanges_bounded (dev : Device) (sent : list string) :
  exists n r e,
    udp_History dev sent = Some (r, e, (sent ++ Spec.cmds n)%list)
    /\ (1 <= n <= 31)%nat.
Proof.
  rewrite udp_History_aggregate.
  destruct (Spec.aggregate _ _ _) as [[r e] c] eqn:E.
  exists c, r, e. split; [reflexivity|].
  apply aggregate_count in E. destruct E as [Hb Hp].
  rewrite length_map, length_seq in Hb.
  specialize (Hp ltac:(discriminate)). lia.
Qed.

(** X6: [History] returns a list and no error, or an error and the nil
    list: never both, never neither; and it always returns. *)
Theorem History_list_or_error (dev : Device) (sent : list string) :
  (exists hist sent', udp_History dev sent = Some (Some hist, None, sent'))
  \/ (exists e sent', udp_History dev sent = Some (None, Some e, sent')).
Proof.
  rewrite udp_History_aggregate.
  destruct (Spec.aggregate _ _ _) as [[r e] c] eqn:E.
  destruct (aggregate_list_or_error _ _ _ _ _ _ E) as [[h [-> ->]]|[x [-> ->]]].
  - left. do 2 eexists. reflexivity.
  - right. do 2 eexists. reflexivity.
Qed.

Lemma accept_cases (hist : list Log) (l : udpLog) :
  Spec.accept hist l = hist \/ Spec.accept hist l = (hist ++ [Log_of l])%list.
Proof.
  unfold Spec.accept. destruct (udpLog_Session l =? 0); [left; reflexivity|].
  destruct (rev hist) as [|x tl]; [right; reflexivity|].
  destruct (udpLog_Session l =? Log_Session x); [left | right]; reflexivity.
Qed.

Lemma StronglySorted_snoc (ks : list nat) (a : nat) :
  StronglySorted lt ks -> Forall (fun k => (k < a)%nat) ks ->
  StronglySorted lt (ks ++ [a]).
Proof.
  induction 1 as [|k ks Hs IH Hk]; intros Hlt; cbn [app].
  - constructor; constructor.
  - inversion Hlt as [|? ? Hka Hrest]; subst.
    constructor; [apply IH; exact Hrest|].
    apply Forall_app. split; [exact Hk | constructor; [exact Hka | constructor]].
Qed.

Section Order.

Variable dev : Device.
Variable sent : list string.

Lemma aggregate_in_slot_order (m : nat) : forall a ks0 r e c',
  Spec.aggregate (map (Spec.slot dev sent) (seq a m))
    (map (fun k => Log_of (fst (Spec.slot dev sent k))) ks0) a = (Some r, e, c') ->
  StronglySorted lt ks0 ->
  Forall (fun k => (k < a)%nat /\ snd (Spec.slot dev sent k) = None) ks0 ->
  exists ks,
    r = map (fun k => Log_of (fst (Spec.slot dev sent k))) ks
    /\ StronglySorted lt ks
    /\ Forall (fun k => (k < a + m)%nat /\ snd (Spec.slot dev sent k) = None) ks.
Proof.
  induction m as [|m IH]; intros a ks0 r e c' H Hs Hf.
  - cbn [seq map Spec.aggregate] in H. injection H as <- _ _.
    exists ks0. repeat split; [exact Hs|].
    eapply Forall_impl; [|exact Hf]. cbv beta. intros k [Hk Hn]. split; [lia | exact Hn].
  - cbn [seq map Spec.aggregate] in H.
    destruct (Spec.slot dev sent a) as [l [e0|]] eqn:Ea; [discriminate|].
    destruct (udpLog_Session l <? 0).
    + injection H as <- _ _. exists ks0. repeat split; [exact Hs|].
      eapply Forall_impl; [|exact Hf]. cbv beta.
      intros k [Hk Hn]. split; [lia | exact Hn].
    + assert (Hweak : Forall (fun k => (k < S a)%nat
                                    /\ snd (Spec.slot dev sent k) = None) ks0).
      { eapply Forall_impl; [|exact Hf]. cbv beta.
        intros k [Hk Hn]. split; [lia | exact Hn]. }
      destruct (accept_cases
                  (map (fun k => Log_of (fst (Spec.slot dev sent k))) ks0) l)
        as [Hacc|Hacc]; rewrite Hacc in H.
      * destruct (IH (S a) ks0 r e c' H Hs Hweak) as (ks & Hr & Hks & Hfk).
        exists ks. repeat split; [exact Hr | exact Hks|].
        eapply Forall_impl; [|exact Hfk]. cbv beta.
        intros k [Hk Hn]. split; [lia | exact Hn].
      * replace (map (fun k => Log_of (fst (Spec.slot dev sent k))) ks0
                   ++ [Log_of l])%list
          with (map (fun k => Log_of (fst (Spec.slot dev sent k))) (ks0 ++ [a]))
          in H by (rewrite map_app; cbn [map]; rewrite Ea; reflexivity).
        destruct (IH (S a) (ks0 ++ [a])%list r e c' H) as (ks & Hr & Hks & Hfk).
        -- apply StronglySorted_snoc; [exact Hs|].
           eapply Forall_impl; [|exact Hf]. cbv beta. intros k [Hk _]. exact Hk.
        -- apply Forall_app. split; [exact Hweak|].
           constructor; [|constructor]. split; [lia | rewrite Ea; reflexivity].
        -- exists ks. repeat split; [exact Hr | exact Hks|].
           eapply Forall_impl; [|exact Hfk]. cbv beta.
           intros k [Hk Hn]. split; [lia | exact Hn].
Qed.

End Order.

(** X7: the list [History] returns is made of the decoded entries of
    slots it asked, each answered without error, taken in the order of
    the slots: no entry is made up, and none is moved or repeated from
    one slot. *)
Theorem History_in_slot_order (dev : Device) (sent sent' : list string)
        (hist : list Log) (e : option error) :
  udp_History dev sent = Some (Some hist, e, sent') ->
  exists ks,
    hist = map (fun k => Log_of (fst (Spec.slot dev sent k))) ks
    /\ StronglySorted lt ks
    /\ Forall (fun k => (k < 31)%nat /\ snd (Spec.slot dev sent k) = None) ks.
Proof.
  intros H. rewrite udp_History_aggregate in H.
  destruct (Spec.aggregate _ _ _) as [[r e'] c] eqn:E.
  injection H as -> _ _.
  apply (aggregate_in_slot_order dev sent 31 0 [] hist e' c E);
    constructor.
Qed.

Lemma History_in_slot_order_witness :
  exists ks,
    map Log_Session
        (map (fun k => Log_of (fst (Spec.slot (Sample.wallbox Sample.seven) [] k)))
             ks) = [5; 6; 7]
    /\ StronglySorted lt ks.
Proof.
  destruct (History_in_slot_order (Sample.wallbox Sample.seven) []
              ["report 100"; "report 101"; "report 102"; "report 103";
               "report 104"; "report 105"]
              (map (fun k => Log_of (fst (Spec.slot (Sample.wallbox Sample.seven) [] k)))
                   [0; 2; 4]%nat) None eq_refl) as (ks & Hk & Hs & _).
  exists ks. split; [rewrite <- Hk; reflexivity | exact Hs].
Defined.

(** ** The history poll of the exporter *)

Lemma history_tick_servable (dev : Device) (hist : option (list Log))
      (sent : list string) :
  Exporter.servable hist ->
  exists hist' n,
    Exporter.history_tick dev (hist, sent) = Some (hist', (sent ++ Spec.cmds n)%list)
    /\ Exporter.servable hist' /\ (1 <= n <= 31)%nat.
Proof.
  intros Hs. unfold Exporter.history_tick. rewrite udp_History_aggregate.
  destruct (Spec.aggregate _ _ _) as [[r e] c] eqn:E.
  pose proof (aggregate_count _ _ _ _ _ _ E) as [Hb Hp].
  rewrite length_map, length_seq in Hb. specialize (Hp ltac:(discriminate)).
  destruct e as [x|].
  - exists hist, c. split; [reflexivity|]. split; [exact Hs | lia].
  - exists r, c. split; [reflexivity|]. split; [|lia].
    intros h ->. apply aggregate_well_formed in E.
    + destruct E as [[Hpos Hadj] Hl].
      rewrite length_map, length_seq in Hl. simpl in Hl.
      repeat split; assumption.
    + split; [constructor|]. intros i d Hi. simpl in Hi. lia.
Qed.


(** ** The metrics of the exporter *)

Lemma udp_Config_shape (dev : Device) (sent : list string) :
  exists c e, udp_Config dev sent = (Some c, e, (sent ++ ["report 2"])%list).
Proof.
  unfold udp_Config, udp_msg.
  destruct (dev sent "report 2"); try (do 2 eexists; reflexivity).
  destruct (Decoder_Decode _ j Config_zero). do 2 eexists; reflexivity.
Qed.

Lemma udp_Session_shape (dev : Device) (sent : list string) :
  exists s e, udp_Session dev sent = (Some s, e, (sent ++ ["report 3"])%list).
Proof.
  unfold udp_Session, udp_msg.
  destruct (dev sent "report 3"); try (do 2 eexists; reflexivity).
  destruct (Decoder_Decode _ j Session_zero). do 2 eexists; reflexivity.
Qed.

Section MetricsFacts.

Variable float : Type.
Variable float64 : Z -> float.
Variable fdiv : float -> float -> float.
Variable dev : Device.

(** A round of [metrics]: two exchanges, two more calls counted, at most
    two more errors. *)
Lemma metrics_tick_accounting (m : Metrics.state float) (sent : list string) :
  exists m' k,
    Metrics.metrics_tick float float64 fdiv dev (m, sent) = Some (m', (sent ++ ["report 2"; "report 3"])%list)
    /\ Metrics.udpTotal float m' = (Metrics.udpTotal float m + 2)%nat
    /\ Metrics.udpErrs float m' = (Metrics.udpErrs float m + k)%nat
    /\ (k <= 2)%nat
    /\ Metrics.energySessionLimit float m' = Metrics.energySessionLimit float m.
Proof.
  unfold Metrics.metrics_tick.
  destruct (udp_Config_shape dev sent) as (c & ec & ->).
  destruct (udp_Session_shape dev (sent ++ ["report 2"])) as (s & es & Hs).
  rewrite <- app_assoc in Hs. cbn [app] in Hs.
  destruct ec as [x|]; rewrite Hs; destruct es as [y|].
  - eexists. exists 2%nat. split; [reflexivity|]. cbn. repeat split; lia.
  - eexists. exists 1%nat. split; [reflexivity|]. cbn. repeat split; lia.
  - eexists. exists 1%nat. split; [reflexivity|]. cbn. repeat split; lia.
  - eexists. exists 0%nat. split; [reflexivity|]. cbn. repeat split; lia.
Qed.

(** A round of the older loop: one exchange when [Config] fails, two
    otherwise; as many more calls counted as exchanges made; at most one
    more error. *)
Lemma main_tick_accounting (m : Metrics.state float) (sent : list string) :
  exists m' k more,
    Metrics.main_tick float float64 fdiv dev (m, sent) = Some (m', (sent ++ "report 2" :: more)%list)
    /\ (more = [] \/ more = ["report 3"])
    /\ Metrics.udpTotal float m' = (Metrics.udpTotal float m + 1 + List.length more)%nat
    /\ Metrics.udpErrs float m' = (Metrics.udpErrs float m + k)%nat
    /\ (k <= 1)%nat
    /\ (more = [] -> k = 1%nat)
    /\ Metrics.energySessionLimit float m' = Metrics.energySessionLimit float m.
Proof.
  unfold Metrics.main_tick.
  destruct (udp_Config_shape dev sent) as (c & ec & ->).
  destruct (udp_Session_shape dev (sent ++ ["report 2"])) as (s & es & Hs).
  rewrite <- app_assoc in Hs. cbn [app] in Hs.
  destruct ec as [x|].
  - eexists. exists 1%nat, []. split; [reflexivity|]. cbn.
    repeat split; try lia. left. reflexivity.
  - rewrite Hs. destruct es as [y|].
    + eexists. exists 1%nat, ["report 3"]. split; [reflexivity|]. cbn.
      repeat split; try lia; try discriminate. right. reflexivity.
    + eexists. exists 0%nat, ["report 3"]. split; [reflexivity|]. cbn.
      repeat split; try lia; try discriminate. right. reflexivity.
Qed.

End MetricsFacts.

(** X10: through any number of rounds of [metrics], whatever fails, a
    round makes the exchanges [report 2] and [report 3], in this order;
    the scrape counter grows by two a round and the error counter by at
    most as much; the gauge of the energy limit is never set; and no
    round panics. *)
Theorem metrics_rounds_accounting
        (float : Type) (float64 : Z -> float) (fdiv : float -> float -> float)
        (dev : Device) (n : nat) (m : Metrics.state float) (sent : list string) :
  exists m',
    Metrics.rounds float (Metrics.metrics_tick float float64 fdiv dev) n (m, sent)
    = Some (m', (sent ++ List.concat (repeat ["report 2"; "report 3"] n))%list)
    /\ Metrics.udpTotal float m' = (Metrics.udpTotal float m + 2 * n)%nat
    /\ (Metrics.udpErrs float m <= Metrics.udpErrs float m'
        <= Metrics.udpErrs float m + 2 * n)%nat
    /\ Metrics.energySessionLimit float m' = Metrics.energySessionLimit float m.
Proof.
  revert m sent. induction n as [|n IH]; intros m sent.
  - exists m. cbn [Metrics.rounds repeat List.concat]. rewrite app_nil_r.
    repeat split; lia.
  - cbn [Metrics.rounds repeat List.concat].
    destruct (metrics_tick_accounting float float64 fdiv dev m sent)
      as (m1 & k & Ht & Htot & Herr & Hk & Hlim).
    rewrite Ht.
    destruct (IH m1 (sent ++ ["report 2"; "report 3"])%list)
      as (m' & Hr & Htot' & Herr' & Hlim').
    exists m'. rewrite <- app_assoc in Hr. split; [exact Hr|].
    repeat split; try lia. congruence.
Qed.

(** X12: through any number of rounds of the loop of the exporter
    without the history poll, the scrape counter has grown by the number
    of exchanges made, which is one or two a round, and the error
    counter by at most one a round: a failed [Config] ends the round
    before [Session] is asked. *)
Theorem main_rounds_accounting
        (float : Type) (float64 : Z -> float) (fdiv : float -> float -> float)
        (dev : Device) (n : nat) (m : Metrics.state float) (sent : list string) :
  exists m' more,
    Metrics.rounds float (Metrics.main_tick float float64 fdiv dev) n (m, sent)
    = Some (m', (sent ++ more)%list)
    /\ Metrics.udpTotal float m' = (Metrics.udpTotal float m + List.length more)%nat
    /\ (n <= List.length more <= 2 * n)%nat
    /\ (Metrics.udpErrs float m <= Metrics.udpErrs float m'
        <= Metrics.udpErrs float m + n)%nat
    /\ (2 * n <= List.length more
                 + (Metrics.udpErrs float m' - Metrics.udpErrs float m))%nat.
Proof.
  revert m sent. induction n as [|n IH]; intros m sent.
  - exists m, []. cbn [Metrics.rounds]. rewrite app_nil_r.
    repeat split; simpl; lia.
  - cbn [Metrics.rounds].
    destruct (main_tick_accounting float float64 fdiv dev m sent)
      as (m1 & k & more1 & Ht & Hmore & Htot & Herr & Hk & Hskip & _).
    rewrite Ht.
    destruct (IH m1 (sent ++ "report 2" :: more1)%list)
      as (m' & more & Hr & Htot' & Hlen & Herr' & Hsum).
    exists m', ("report 2" :: more1 ++ more)%list.
    rewrite <- app_assoc in Hr. split; [exact Hr|].
    assert (Hl1 : (List.length more1 <= 1)%nat)
      by (destruct Hmore as [->| ->]; simpl; lia).
    assert (Hk1 : (List.length more1 + k >= 1)%nat).
    { destruct Hmore as [->| ->]; [rewrite (Hskip eq_refl) | ]; simpl; lia. }
    cbn [List.length]. rewrite length_app.
    repeat split; lia.
Qed.

Lemma has_bit (d k : Z) :
  0 <= k -> negb (Z.land d (2 ^ k) =? 0) = Z.testbit d k.
Proof.
  intros Hk. rewrite (land_pow2 d k Hk).
  destruct (Z.testbit d k); [|reflexivity].
  apply negb_true_iff, Z.eqb_neq.
  pose proof (Z.pow_pos_nonneg 2 k ltac:(lia) Hk). lia.
Qed.

(** X11: what one round of [metrics] does with the outcome of its two
    calls.  A failed [Config] leaves the current limits, the status and
    the plug gauges as they were, and the round still takes the session;
    a failed [Session] leaves the voltages, currents, power and the two
    energies as they were.  A [Config] without error sets the limits to
    a thousandth of the two currents, the status to the state, and the
    three plug gauges to bits 0, 1 and 2 of [Plug]; a [Session] without
    error sets the gauges of the three phases, the power and the two
    energies, a tenth of the readings. *)
Theorem metrics_tick_isolation
        (float : Type) (float64 : Z -> float) (fdiv : float -> float -> float)
        (dev : Device) (m : Metrics.state float) (sent s1 s2 : list string)
        (c : Config) (s : Session) (ec es : option error) :
  udp_Config dev sent = (Some c, ec, s1) ->
  udp_Session dev s1 = (Some s, es, s2) ->
  exists m',
    Metrics.metrics_tick float float64 fdiv dev (m, sent) = Some (m', s2)
    /\ (ec <> None ->
        Metrics.currentLimit float m' = Metrics.currentLimit float m
        /\ Metrics.status float m' = Metrics.status float m
        /\ Metrics.plugStatus float m' = Metrics.plugStatus float m)
    /\ (es <> None ->
        Metrics.voltage float m' = Metrics.voltage float m
        /\ Metrics.current float m' = Metrics.current float m
        /\ Metrics.power float m' = Metrics.power float m
        /\ Metrics.whTotal float m' = Metrics.whTotal float m
        /\ Metrics.whSession float m' = Metrics.whSession float m)
    /\ (ec = None ->
        Metrics.currentLimit float m' "hw"
        = Some (fdiv (float64 (Config_MaxCurrent c)) (float64 1000))
        /\ Metrics.currentLimit float m' "user"
           = Some (fdiv (float64 (Config_CurrentLimit c)) (float64 1000))
        /\ Metrics.status float m' = float64 (Config_State c)
        /\ Metrics.plugStatus float m' "station"
           = Some (Metrics.btof float float64 (Z.testbit (Config_Plug c) 0))
        /\ Metrics.plugStatus float m' "locked"
           = Some (Metrics.btof float float64 (Z.testbit (Config_Plug c) 1))
        /\ Metrics.plugStatus float m' "ev"
           = Some (Metrics.btof float float64 (Z.testbit (Config_Plug c) 2)))
    /\ (es = None ->
        Metrics.voltage float m' "1" = Some (float64 (Session_Voltage1 s))
        /\ Metrics.voltage float m' "2" = Some (float64 (Session_Voltage2 s))
        /\ Metrics.voltage float m' "3" = Some (float64 (Session_Voltage3 s))
        /\ Metrics.current float m' "1"
           = Some (fdiv (float64 (Session_Current1 s)) (float64 1000))
        /\ Metrics.current float m' "2"
           = Some (fdiv (float64 (Session_Current2 s)) (float64 1000))
        /\ Metrics.current float m' "3"
           = Some (fdiv (float64 (Session_Current3 s)) (float64 1000))
        /\ Metrics.power float m'
           = fdiv (float64 (Session_Power s)) (float64 1000)
        /\ Metrics.whTotal float m'
           = fdiv (float64 (Session_Total s)) (float64 10)
        /\ Metrics.whSession float m'
           = fdiv (float64 (Session_Energy s)) (float64 10)).
Proof.
  intros Hc Hs. unfold Metrics.metrics_tick. rewrite Hc.
  pose proof (has_bit (Config_Plug c) 0 ltac:(lia)) as B0.
  pose proof (has_bit (Config_Plug c) 1 ltac:(lia)) as B1.
  pose proof (has_bit (Config_Plug c) 2 ltac:(lia)) as B2.
  change (2 ^ 0) with Metrics.PlugStation in B0.
  change (2 ^ 1) with Metrics.PlugLocked in B1.
  change (2 ^ 2) with Metrics.PlugEV in B2.
  destruct ec as [x|]; rewrite Hs; destruct es as [y|];
    (eexists; split; [reflexivity|]);
    (split; [intros H; try (exfalso; apply H; reflexivity);
             repeat split; reflexivity|]);
    (split; [intros H; try (exfalso; apply H; reflexivity);
             repeat split; reflexivity|]);
    (split; [intros H; try discriminate H;
             cbn; rewrite B0, B1, B2; repeat split; reflexivity|]);
    intros H; try discriminate H; repeat split; reflexivity.
Qed.

Lemma metrics_tick_isolation_witness :
  exists m',
    Metrics.metrics_tick PrimFloat.float MetricsSample.float64 PrimFloat.div
      MetricsSample.half_deaf (MetricsSample.start, [])
    = Some (m', ["report 2"; "report 3"])
    /\ Metrics.currentLimit PrimFloat.float m' "hw" = None
    /\ Metrics.voltage PrimFloat.float m' "1" = Some (MetricsSample.float64 230)
    /\ Metrics.current PrimFloat.float m' "1"
       = Some (PrimFloat.div (MetricsSample.float64 15900)
                             (MetricsSample.float64 1000))
    /\ Metrics.whSession PrimFloat.float m'
       = PrimFloat.div (MetricsSample.float64 2301) (MetricsSample.float64 10)
    /\ Metrics.udpTotal PrimFloat.float m' = 2%nat
    /\ Metrics.udpErrs PrimFloat.float m' = 1%nat.
Proof.
  destruct (metrics_tick_isolation PrimFloat.float MetricsSample.float64
              PrimFloat.div MetricsSample.half_deaf MetricsSample.start
              [] ["report 2"] ["report 2"; "report 3"]
              Config_zero (mkSession 2301 81234567 230 0 0 15900 0 0 3657000)
              (Some Sample.timeout) None eq_refl eq_refl)
    as (m' & Ht & Hcfg & _ & _ & Hsess).
  exists m'. split; [exact Ht|].
  destruct (Hcfg ltac:(discriminate)) as (Hl & _ & _).
  destruct (Hsess eq_refl) as (V1 & _ & _ & I1 & _ & _ & _ & _ & E).
  split; [rewrite Hl; reflexivity|].
  split; [exact V1|]. split; [exact I1|]. split; [exact E|].
  injection Ht as <-. split; reflexivity.
Defined.

(** ** The register [F] of the exporter *)

Section RegisterFacts.

Variable V : Type.

Lemma count_upd (f : Register.pc V -> bool) (l : list (Register.pc V)) :
  forall g p p',
  nth_error l g = Some p ->
  (Register.count V f (Register.upd V l g p') + (if f p then 1 else 0)
   = Register.count V f l + (if f p' then 1 else 0))%nat.
Proof.
  induction l as [|x t IH]; intros g p p' H.
  - destruct g; discriminate H.
  - destruct g as [|g]; cbn [nth_error] in H.
    + injection H as ->. cbn [Register.upd Register.count]. lia.
    + cbn [Register.upd Register.count]. specialize (IH g p p' H). lia.
Qed.

Lemma count_zero (f : Register.pc V -> bool) (l : list (Register.pc V)) :
  Register.count V f l = O ->
  forall g p, nth_error l g = Some p -> f p = false.
Proof.
  induction l as [|x t IH]; intros H g p Hg.
  - destruct g; discriminate Hg.
  - cbn [Register.count] in H. destruct g as [|g]; cbn [nth_error] in Hg.
    + injection Hg as ->. destruct (f p); [discriminate H | reflexivity].
    + apply (IH ltac:(destruct (f x); simpl in H; lia) g p Hg).
Qed.

Lemma count_one (f : Register.pc V -> bool) (l : list (Register.pc V)) :
  (Register.count V f l <= 1)%nat ->
  forall g h p q, nth_error l g = Some p -> nth_error l h = Some q ->
                  f p = true -> f q = true -> g = h.
Proof.
  induction l as [|x t IH]; intros H g h p q Hg Hh Hp Hq.
  - destruct g; discriminate Hg.
  - cbn [Register.count] in H.
    destruct g as [|g], h as [|h]; cbn [nth_error] in Hg, Hh.
    + reflexivity.
    + injection Hg as ->. rewrite Hp in H.
      rewrite (count_zero f t ltac:(lia) h q Hh) in Hq. discriminate Hq.
    + injection Hh as ->. rewrite Hq in H.
      rewrite (count_zero f t ltac:(lia) g p Hg) in Hp. discriminate Hp.
    + f_equal. apply (IH ltac:(destruct (f x); simpl in H; lia) g h p q); assumption.
Qed.

Lemma count_repeat_Out (f : Register.pc V -> bool) (n : nat) :
  f (Register.Out V) = false -> Register.count V f (repeat (Register.Out V) n) = O.
Proof.
  intros H. induction n as [|n IH]; cbn [repeat Register.count];
    [reflexivity | rewrite H, IH; reflexivity].
Qed.

Variable init : V.

Lemma register_invariant (s : Register.state V) :
  Register.reachable V init s -> Register.invariant V init s.
Proof.
  induction 1 as [n | s s' Hreach IH Hstep].
  - unfold Register.invariant, Register.known. cbn.
    rewrite !count_repeat_Out by reflexivity.
    repeat split; try reflexivity; try (left; reflexivity).
    + intros g r Hg. apply nth_error_In, repeat_spec in Hg. discriminate Hg.
    + intros r [].
  - destruct IH as (Hr & Hw & Hx & Hval & Hhand & Hret).
    assert (Hnth : forall l g p p' h q,
               nth_error l g = Some p ->
               nth_error (Register.upd V l g p') h = Some q ->
               (h = g /\ q = p') \/ nth_error l h = Some q).
    { induction l as [|x t IHl]; intros g p p' h q Hg Hh.
      - destruct g; discriminate Hg.
      - destruct g as [|g], h as [|h]; cbn [Register.upd nth_error] in *.
        + left. split; [reflexivity | congruence].
        + right. exact Hh.
        + right. exact Hh.
        + destruct (IHl g p p' h q Hg Hh) as [[-> ->]|Hq];
            [left; split; reflexivity | right; exact Hq]. }
    assert (Hkeep : forall l g p p',
               nth_error l g = Some p ->
               (forall r, p' <> Register.GetRUnlock V r) ->
               (forall h r, nth_error l h = Some (Register.GetRUnlock V r) ->
                            Register.known V init s r) ->
               forall h r,
                 nth_error (Register.upd V l g p') h
                 = Some (Register.GetRUnlock V r) -> Register.known V init s r).
    { intros l g p p' Hg Hp' Hall h r Hh.
      destruct (Hnth _ _ _ _ _ _ Hg Hh) as [[_ E]|Hq];
        [exfalso; apply (Hp' r); symmetry; exact E | apply (Hall h r Hq)]. }
    destruct Hstep as [g v s Hg | g v s Hg Hfree Hnone | g v s Hg | g s Hg
                       | g s Hg | g s Hg Hfree | g s Hg | g r s Hg];
      unfold Register.invariant, Register.known in *;
      cbn [Register.writer Register.readers Register.val Register.at_
           Register.written Register.returned] in *;
      match goal with
      | |- context [Register.upd V _ g ?p'] =>
          pose proof (count_upd (Register.reading V) _ g _ p' Hg) as Cr;
          pose proof (count_upd (Register.writing V) _ g _ p' Hg) as Cw;
          cbn [Register.reading Register.writing] in Cr, Cw
      end.
    + (* the call of Set *)
      split; [lia|]. split; [lia|]. split; [exact Hx|]. split; [exact Hval|].
      split; [|exact Hret].
      apply (Hkeep _ _ _ _ Hg); [intros ?; discriminate | exact Hhand].
    + (* Lock *)
      rewrite Hfree in Hw.
      split; [lia|]. split; [lia|]. split; [intros _; exact Hnone|].
      split; [exact Hval|]. split; [|exact Hret].
      apply (Hkeep _ _ _ _ Hg); [intros ?; discriminate | exact Hhand].
    + (* the write *)
      split; [lia|]. split; [lia|]. split; [exact Hx|].
      split; [right; left; reflexivity|]. split.
      * intros h r Hh.
        destruct (Hkeep _ _ _ (Register.SetUnlock V) Hg
                    ltac:(intros ?; discriminate) Hhand h r Hh) as [->|Hin];
          [left; reflexivity | right; right; exact Hin].
      * intros r Hin. destruct (Hret r Hin) as [->|Hin'];
          [left; reflexivity | right; right; exact Hin'].
    + (* Unlock *)
      assert (Hwt : Register.writer V s = true).
      { destruct (Register.writer V s); [reflexivity | lia]. }
      rewrite Hwt in Hw.
      split; [lia|]. split; [lia|]. split; [discriminate|].
      split; [exact Hval|]. split; [|exact Hret].
      apply (Hkeep _ _ _ _ Hg); [intros ?; discriminate | exact Hhand].
    + (* the call of Get *)
      split; [lia|]. split; [lia|]. split; [exact Hx|]. split; [exact Hval|].
      split; [|exact Hret].
      apply (Hkeep _ _ _ _ Hg); [intros ?; discriminate | exact Hhand].
    + (* RLock *)
      split; [lia|]. split; [lia|].
      split; [intros Ht; rewrite Hfree in Ht; discriminate Ht|].
      split; [exact Hval|]. split; [|exact Hret].
      apply (Hkeep _ _ _ _ Hg); [intros ?; discriminate | exact Hhand].
    + (* the read *)
      split; [lia|]. split; [lia|]. split; [exact Hx|]. split; [exact Hval|].
      split; [|exact Hret].
      intros h r Hh. destruct (Hnth _ _ _ _ _ _ Hg Hh) as [[_ E]|Hq];
        [injection E as ->; exact Hval | apply (Hhand h r Hq)].
    + (* RUnlock *)
      split; [lia|]. split; [lia|].
      split; [intros Ht; specialize (Hx Ht); lia|].
      split; [exact Hval|]. split.
      * apply (Hkeep _ _ _ _ Hg); [intros ?; discriminate | exact Hhand].
      * intros r' [<-|Hin]; [apply (Hhand g r Hg) | apply (Hret r' Hin)].
Qed.

End RegisterFacts.

(** X13: in every state a register reaches, whatever the goroutines
    that call [Set] and [Get] and however they interleave, a goroutine
    that holds the mutex for writing is the only one to do so, and no
    goroutine is reading [f.val] meanwhile. *)
Theorem register_write_exclusive (V : Type) (init : V) (s : Register.state V) :
  Register.reachable V init s ->
  forall g h p q,
    nth_error (Register.at_ V s) g = Some p ->
    nth_error (Register.at_ V s) h = Some q ->
    Register.writing V p = true ->
    (Register.writing V q = true -> g = h) /\ Register.reading V q = false.
Proof.
  intros Hreach g h p q Hg Hh Hp.
  destruct (register_invariant V init s Hreach) as (Hr & Hw & Hx & _).
  assert (Hwt : Register.writer V s = true).
  { destruct (Register.writer V s); [reflexivity|].
    rewrite (count_zero V _ _ Hw g p Hg) in Hp. discriminate Hp. }
  split.
  - intros Hq.
    apply (count_one V (Register.writing V) (Register.at_ V s)
             ltac:(rewrite Hw, Hwt; lia) g h p q Hg Hh Hp Hq).
  - apply (count_zero V (Register.reading V) (Register.at_ V s)) with (g := h);
      [|exact Hh]. rewrite <- Hr. apply Hx. exact Hwt.
Qed.

Lemma contended_reachable : Register.reachable Z 0 Register.contended.
Proof.
  pose proof (Register.reach_init Z 0 2) as R.
  match type of R with Register.reachable _ _ ?s =>
    pose proof (Register.reach_step Z 0 s _ R
                  (Register.step_Set Z 0 5 s eq_refl)) as R1 end.
  match type of R1 with Register.reachable _ _ ?s =>
    pose proof (Register.reach_step Z 0 s _ R1
                  (Register.step_Lock Z 0 5 s eq_refl eq_refl eq_refl)) as R2 end.
  match type of R2 with Register.reachable _ _ ?s =>
    exact (Register.reach_step Z 0 s _ R2 (Register.step_Get Z 1 s eq_refl)) end.
Defined.

Lemma register_write_exclusive_witness :
  Register.reachable Z 0 Register.contended
  /\ Register.reading Z (Register.GetRLock Z) = false.
Proof.
  split; [exact contended_reachable|].
  exact (proj2 (register_write_exclusive Z 0 Register.contended
                  contended_reachable 0%nat 1%nat _ _ eq_refl eq_refl eq_refl)).
Defined.
